(** * pixl command-line parser (cli/cli_parser.h)

    A shallow embedding of [CliArg], [CliSubcommand], [CliParserResult] and
    [CliParser].  The parser stores raw pointers to argument and subcommand
    objects owned by the embedding application, and [processArgument] writes
    the consumed value into the shared [CliArg] object.  The model therefore
    keeps two object stores (one per pointee type) next to the parser and the
    result object, and every member function is a computation in a state
    monad over that [world].  Dereferencing a pointer that is null or has no
    object behind it is undefined behaviour and is modelled by [None]. *)

From Stdlib Require Import Ascii.
From stdpp Require Import gmap strings list.

Local Open Scope string_scope.
Local Open Scope nat_scope.
Local Open Scope list_scope.

(** ** Pointers and objects *)

(** A pointer is an address; address 0 is [nullptr]. *)
Abbreviation ptr := N (only parsing).
Definition nullptr : ptr := 0%N.

Module CliArg.
(** [struct CliArg]: [param] is the only field written after construction. *)
Record t := mk {
  name : string;
  description : string;
  param : string;
  hasParam : bool;
  required : bool
}.

(** The constructor leaves [param] default-initialised (empty). *)
Definition new (name description : string) (hasParam required : bool) : t :=
  mk name description "" hasParam required.

(** [arg->param = value] *)
Definition set_param (value : string) (a : t) : t :=
  mk (name a) (description a) value (hasParam a) (required a).
End CliArg.

Module CliSubcommand.
(** [class CliSubcommand]: a name and a vector of [CliArg*]. *)
Record t := mk {
  name : string;
  args : list ptr
}.

Definition new (name : string) : t := mk name [].

(** [void addArg(CliArg* arg)] *)
Definition addArg (arg : ptr) (c : t) : t := mk (name c) (args c ++ [arg]).
End CliSubcommand.

Module CliParserResult.
(** [struct CliParserResult] *)
Record t := mk {
  errorMessage : string;
  args : list ptr;
  subcommand : ptr
}.

(** The default constructor: empty message, empty vector, null subcommand. *)
Definition new : t := mk "" [] nullptr.
End CliParserResult.

Module CliParser.
(** The private members of [class CliParser]. *)
Record t := mk {
  subcommands : list ptr;
  args : list ptr
}.

Definition new : t := mk [] [].

(** [void addSubcommand(CliSubcommand* sub)] *)
Definition addSubcommand (sub : ptr) (p : t) : t :=
  mk (subcommands p ++ [sub]) (args p).

(** [void addArg(CliArg* arg)] *)
Definition addArg (arg : ptr) (p : t) : t :=
  mk (subcommands p) (args p ++ [arg]).
End CliParser.

(** ** The world: object stores, the parser and the result object *)

Record world := World {
  arg_heap : gmap N CliArg.t;
  sub_heap : gmap N CliSubcommand.t;
  parser : CliParser.t;
  result : CliParserResult.t
}.

Definition with_arg_heap (h : gmap N CliArg.t) (w : world) : world :=
  World h (sub_heap w) (parser w) (result w).
Definition with_parser (p : CliParser.t) (w : world) : world :=
  World (arg_heap w) (sub_heap w) p (result w).
Definition with_result (r : CliParserResult.t) (w : world) : world :=
  World (arg_heap w) (sub_heap w) (parser w) r.

(** [*p]: undefined for the null pointer and for addresses without object. *)
Definition deref {A : Type} (h : gmap N A) (p : ptr) : option A :=
  if decide (p = nullptr) then None else h !! p.

(** ** The state monad with undefined behaviour *)

Definition M (A : Type) : Type := world → option (A * world).

Global Instance M_ret : MRet M := λ A a w, Some (a, w).
Global Instance M_bind : MBind M := λ A B f m w,
  match m w with
  | Some (a, w') => f a w'
  | None => None
  end.

Definition undefined {A : Type} : M A := λ _, None.

(** [arg->...] for a [CliArg*] *)
Definition load_arg (p : ptr) : M CliArg.t := λ w,
  match deref (arg_heap w) p with
  | Some a => Some (a, w)
  | None => None
  end.

(** [cmd->...] for a [CliSubcommand*] *)
Definition load_sub (p : ptr) : M CliSubcommand.t := λ w,
  match deref (sub_heap w) p with
  | Some c => Some (c, w)
  | None => None
  end.

(** [arg->param = value] *)
Definition store_param (p : ptr) (value : string) : M unit := λ w,
  match deref (arg_heap w) p with
  | Some a => Some (tt, with_arg_heap (<[p := CliArg.set_param value a]> (arg_heap w)) w)
  | None => None
  end.

(** [result.errorMessage = msg] *)
Definition set_error (msg : string) : M unit := λ w,
  let r := result w in
  Some (tt, with_result (CliParserResult.mk msg (CliParserResult.args r)
                                           (CliParserResult.subcommand r)) w).

(** [result.args.push_back(arg)] *)
Definition push_result (arg : ptr) : M unit := λ w,
  let r := result w in
  Some (tt, with_result (CliParserResult.mk (CliParserResult.errorMessage r)
                                           (CliParserResult.args r ++ [arg])
                                           (CliParserResult.subcommand r)) w).

(** [result.subcommand = sub] *)
Definition set_subcommand (sub : ptr) : M unit := λ w,
  let r := result w in
  Some (tt, with_result (CliParserResult.mk (CliParserResult.errorMessage r)
                                           (CliParserResult.args r) sub) w).

(** [args.clear(); args.insert(args.end(), first, last)] on the parser *)
Definition replace_args (l : list ptr) : M unit := λ w,
  Some (tt, with_parser (CliParser.mk (CliParser.subcommands (parser w)) ([] ++ l)) w).

(** ** C strings

    A token of [argv] is a NUL-terminated string; it is modelled by the
    characters before the terminator. *)

(** [s[0]]: the first character, the terminating NUL for the empty string. *)
Definition first_char (s : string) : ascii :=
  match s with
  | String c _ => c
  | EmptyString => Ascii.zero
  end.

(** [s[0] == '-'] *)
Definition starts_dash (s : string) : bool :=
  Ascii.eqb (first_char s) "-"%char.

(** [s + 1]; the parser takes it only of tokens that start with ['-']. *)
Definition skip1 (s : string) : string :=
  match s with
  | String _ r => r
  | EmptyString => EmptyString
  end.

(** [argv[i]]; every use in the parser is guarded by a bound on [i].  The
    indices are [int]s in the source; [argc] bounds them, so they are
    modelled by [nat]. *)
Definition tok (argv : list string) (i : nat) : string := nth i argv "".

(** ** Lookups *)

(** The loop shared by the three lookup functions:
    [for (auto a : v) if (a->name == name) return a; return nullptr;] *)
Fixpoint find_named {A : Type} (nm : A → string) (h : gmap N A)
    (v : list ptr) (name : string) : option ptr :=
  match v with
  | [] => Some nullptr
  | a :: v' =>
      match deref h a with
      | Some o => if String.eqb (nm o) name then Some a else find_named nm h v' name
      | None => None
      end
  end.

(** [CliParserResult::getArgument] *)
Definition Result_getArgument (name : string) : M ptr := λ w,
  match find_named CliArg.name (arg_heap w) (CliParserResult.args (result w)) name with
  | Some a => Some (a, w)
  | None => None
  end.

(** [CliParser::getSubcommand] *)
Definition getSubcommand (name : string) : M ptr := λ w,
  match find_named CliSubcommand.name (sub_heap w) (CliParser.subcommands (parser w)) name with
  | Some c => Some (c, w)
  | None => None
  end.

(** [CliParser::getArgument] *)
Definition getArgument (name : string) : M ptr := λ w,
  match find_named CliArg.name (arg_heap w) (CliParser.args (parser w)) name with
  | Some a => Some (a, w)
  | None => None
  end.

(** ** Processing one flag *)

(** [CliParser::processFlag] *)
Definition processFlag (name : string) : M bool :=
  arg ← getArgument name;
  if negb (N.eqb arg nullptr) then
    a ← load_arg arg;
    if CliArg.hasParam a then
      set_error ("Argument " +:+ name +:+ " must have a parameter");; mret false
    else
      push_result arg;; mret true
  else
    set_error ("Unkown argument " +:+ name);; mret false.

(** [CliParser::processArgument] *)
Definition processArgument (name value : string) : M bool :=
  arg ← getArgument name;
  if negb (N.eqb arg nullptr) then
    a ← load_arg arg;
    if negb (CliArg.hasParam a) then
      set_error ("Argument " +:+ name +:+ " can not have a parameter");; mret false
    else
      store_param arg value;; push_result arg;; mret true
  else
    set_error ("Unkown argument " +:+ name);; mret false.

(** ** [CliParser::processArguments] *)

(** One iteration of [while (i < argc)]: [Some i'] continues the loop with
    the new index, [None] is [return false]. *)
Definition loop_body (argv : list string) (i : nat) : M (option nat) :=
  let argc := length argv in
  if (i + 2 <=? argc) && starts_dash (tok argv i) && negb (starts_dash (tok argv (i + 1))) then
    ok ← processArgument (skip1 (tok argv i)) (tok argv (i + 1));
    mret (if ok : bool then Some (i + 2) else None)
  else if starts_dash (tok argv i) then
    ok ← processFlag (skip1 (tok argv i));
    mret (if ok : bool then Some (i + 1) else None)
  else
    set_error "Weird input";; mret None.

(** [for (auto arg : this->args)]: the check of the required arguments. *)
Fixpoint check_required (v : list ptr) : M bool :=
  match v with
  | [] => mret true
  | arg :: v' =>
      a ← load_arg arg;
      if negb (CliArg.required a) then check_required v'
      else
        found ← Result_getArgument (CliArg.name a);
        if N.eqb found nullptr then
          set_error ("Missing required argument: " +:+ CliArg.name a);; mret false
        else check_required v'
  end.

(** The [while] loop followed by the check.  [i] grows in every iteration, so
    [length argv - i] iterations of fuel are enough. *)
Fixpoint scan (fuel : nat) (argv : list string) (i : nat) : M bool :=
  if i <? length argv then
    match fuel with
    | O => undefined
    | S fuel' =>
        r ← loop_body argv i;
        match r with
        | Some i' => scan fuel' argv i'
        | None => mret false
        end
    end
  else
    (λ w, check_required (CliParser.args (parser w)) w).

Definition processArguments (argv : list string) : M bool :=
  scan (length argv) argv 0.

(** ** [CliParser::processSubcommand] *)

Definition processSubcommand (argv : list string) : M bool :=
  (λ w,
    (cmd ← load_sub (CliParserResult.subcommand (result w));
     replace_args (CliSubcommand.args cmd);;
     processArguments argv) w).

(** ** [CliParser::parse]

    [argv] is the whole argument vector of [main], the program name at index
    0 included, and [argc] is its length. *)
Definition parse (argv : list string) : M bool :=
  if length argv <? 2 then
    set_error "No args";; mret false
  else
    subcommand ← getSubcommand (tok argv 1);
    if negb (N.eqb subcommand nullptr) then
      set_subcommand subcommand;;
      processSubcommand (drop 2 argv)
    else
      processArguments (drop 1 argv).

(** ** Derived notions used in the statements *)

(** The world after [result.errorMessage = msg]. *)
Definition fail_with (msg : string) (w : world) : world :=
  with_result (CliParserResult.mk msg (CliParserResult.args (result w))
                                  (CliParserResult.subcommand (result w))) w.

(** The world after [result.args.push_back(arg)]. *)
Definition pushed (arg : ptr) (w : world) : world :=
  with_result (CliParserResult.mk (CliParserResult.errorMessage (result w))
                                  (CliParserResult.args (result w) ++ [arg])
                                  (CliParserResult.subcommand (result w))) w.

(** The world after [arg->param = value] on the object [a] behind [arg]. *)
Definition stored (arg : ptr) (value : string) (a : CliArg.t) (w : world) : world :=
  with_arg_heap (<[arg := CliArg.set_param value a]> (arg_heap w)) w.

(** The world in which [processSubcommand] starts the scan: the subcommand is
    recorded in the result and the parser's argument vector holds the
    subcommand's arguments. *)
Definition in_subcommand (c : ptr) (cmd : CliSubcommand.t) (w : world) : world :=
  World (arg_heap w) (sub_heap w)
        (CliParser.mk (CliParser.subcommands (parser w)) (CliSubcommand.args cmd))
        (CliParserResult.mk (CliParserResult.errorMessage (result w))
                            (CliParserResult.args (result w)) c).

(** [parse argv] started in [w0] calls [processArguments toks] in [w1]. *)
Inductive enters (argv : list string) (w0 : world) : list string → world → Prop :=
  | enters_flat :
      2 ≤ length argv →
      getSubcommand (tok argv 1) w0 = Some (nullptr, w0) →
      enters argv w0 (drop 1 argv) w0
  | enters_sub c cmd :
      2 ≤ length argv →
      getSubcommand (tok argv 1) w0 = Some (c, w0) →
      c ≠ nullptr →
      deref (sub_heap w0) c = Some cmd →
      enters argv w0 (drop 2 argv) (in_subcommand c cmd w0).

(** A match made by the scan: the argument object and the value consumed
    with it, if any. *)
Definition matched : Type := ptr * option string.

(** [scan_at toks w0 i ms w]: the loop of [processArguments toks], started
    in [w0], is at its head with index [i] in world [w], after the matches
    [ms], in the order of the command line. *)
Inductive scan_at (toks : list string) (w0 : world) : nat → list matched → world → Prop :=
  | scan_at_start : scan_at toks w0 0 [] w0
  | scan_at_value i ms w a w' :
      scan_at toks w0 i ms w →
      i + 2 ≤ length toks →
      starts_dash (tok toks i) = true →
      starts_dash (tok toks (i + 1)) = false →
      getArgument (skip1 (tok toks i)) w = Some (a, w) →
      processArgument (skip1 (tok toks i)) (tok toks (i + 1)) w = Some (true, w') →
      scan_at toks w0 (i + 2) (ms ++ [(a, Some (tok toks (i + 1)))]) w'
  | scan_at_flag i ms w a w' :
      scan_at toks w0 i ms w →
      i < length toks →
      starts_dash (tok toks i) = true →
      (i + 2 ≤ length toks → starts_dash (tok toks (i + 1)) = true) →
      getArgument (skip1 (tok toks i)) w = Some (a, w) →
      processFlag (skip1 (tok toks i)) w = Some (true, w') →
      scan_at toks w0 (i + 1) (ms ++ [(a, None)]) w'.

(** The part of an argument object that parsing never writes. *)
Definition frame (h : gmap N CliArg.t) : gmap N CliArg.t :=
  CliArg.set_param "" <$> h.

(** Every pointer the parser can follow has an object behind it. *)
Definition valid_arg (w : world) (a : ptr) : Prop := is_Some (deref (arg_heap w) a).

Record wf (w : world) : Prop := {
  wf_subcommands :
    Forall (λ c, ∃ cmd, deref (sub_heap w) c = Some cmd ∧
                        Forall (valid_arg w) (CliSubcommand.args cmd))
           (CliParser.subcommands (parser w));
  wf_args : Forall (valid_arg w) (CliParser.args (parser w));
  wf_result : Forall (valid_arg w) (CliParserResult.args (result w))
}.

(** Distinct argument objects of a scope have distinct names. *)
Definition unique_names (h : gmap N CliArg.t) (v : list ptr) : Prop :=
  ∀ a b oa ob, a ∈ v → b ∈ v → deref h a = Some oa → deref h b = Some ob →
               CliArg.name oa = CliArg.name ob → a = b.

(** What a run of the scan may change: it appends argument objects of the
    active scope to the result, writes [param] fields and the error message,
    and nothing else. *)
Definition evolves (w w' : world) : Prop :=
  parser w' = parser w ∧ sub_heap w' = sub_heap w ∧
  frame (arg_heap w') = frame (arg_heap w) ∧
  CliParserResult.subcommand (result w') = CliParserResult.subcommand (result w) ∧
  ∃ l, CliParserResult.args (result w') = CliParserResult.args (result w) ++ l ∧
       Forall (λ a, a ∈ CliParser.args (parser w)) l.

(** The scan can follow every pointer it meets. *)
Definition scan_ready (w : world) : Prop :=
  Forall (valid_arg w) (CliParser.args (parser w)) ∧
  Forall (valid_arg w) (CliParserResult.args (result w)).

(** Two worlds that differ at most in [param] fields. *)
Definition same_but_params (w v : world) : Prop :=
  parser w = parser v ∧ sub_heap w = sub_heap v ∧ result w = result v ∧
  frame (arg_heap w) = frame (arg_heap v).

(** Two runs from [w] and from [v] that end in [w1] and in [v1]: every
    argument object is either the same in both ends, or untouched by both
    runs. *)
Definition params_merged (w v w1 v1 : world) : Prop :=
  ∀ a, arg_heap w1 !! a = arg_heap v1 !! a ∨
       (arg_heap w1 !! a = arg_heap w !! a ∧ arg_heap v1 !! a = arg_heap v !! a).

(** ** Command lines made of flags

    A flag without value, [-name], or a flag with its value, [-name value]. *)
Inductive item :=
  | Bare (name : string)
  | Valued (name value : string).

Definition item_name (it : item) : string :=
  match it with
  | Bare n => n
  | Valued n _ => n
  end.

Definition item_tokens (it : item) : list string :=
  match it with
  | Bare n => [String "-" n]
  | Valued n v => [String "-" n; v]
  end.

Definition tokens_of (items : list item) : list string :=
  concat (map item_tokens items).

(** The value that the item hands to its flag, if any. *)
Definition item_value (it : item) : option string :=
  match it with
  | Bare _ => None
  | Valued _ v => Some v
  end.

(** The object behind [a] carries the name of the item and takes a
    parameter exactly if the item has a value; a value does not start with
    ['-']. *)
Definition item_for (h : gmap N CliArg.t) (it : item) (a : ptr) : Prop :=
  ∃ o, deref h a = Some o ∧ CliArg.name o = item_name it ∧
       match it with
       | Bare _ => CliArg.hasParam o = false
       | Valued _ v => CliArg.hasParam o = true ∧ starts_dash v = false
       end.

(** The parser's lookup of the item's name in [w] returns an object that
    fits the item. *)
Definition accepts_item (w : world) (it : item) (a : ptr) : Prop :=
  getArgument (item_name it) w = Some (a, w) ∧ item_for (arg_heap w) it a.

(** ** A small registry for concrete runs

    Top-level arguments [-out <file>] (required) and [-verbose]; one
    subcommand [convert] with the arguments [-quality <n>] and
    [-to <format>] (required). *)
Definition demo : world :=
  World {[ 1%N := CliArg.new "out" "output file" true true;
           2%N := CliArg.new "verbose" "print more" false false;
           3%N := CliArg.new "quality" "compression quality" true false;
           4%N := CliArg.new "to" "target format" true true ]}
        {[ 7%N := CliSubcommand.addArg 4%N
                    (CliSubcommand.addArg 3%N (CliSubcommand.new "convert")) ]}
        (CliParser.addArg 2%N (CliParser.addArg 1%N
           (CliParser.addSubcommand 7%N CliParser.new)))
        CliParserResult.new.

(** * pixl/utils.h: [aswap]

    [aswap(u8* x, u8* y, i32 len)] swaps two arrays element by element.  The
    two pointers may point into the same buffer, so the model works on one
    memory, a finite map from addresses to elements; reading or writing an
    address without element is undefined behaviour, [None].  The element
    type [u8] is declared in [types.h], which the function does not depend
    on: it is a parameter. *)

(** [std::swap(x[i], y[i])] for the cells at [p] and [q]. *)
Definition swap_cells {u8 : Type} (p q : Z) (m : gmap Z u8) : option (gmap Z u8) :=
  match m !! p, m !! q with
  | Some a, Some b => Some (<[q := a]> (<[p := b]> m))
  | _, _ => None
  end.

(** [for (i32 i = ...; i < len; i++) std::swap(x[i], y[i]);] from the index
    [i] on.  [len - i] iterations of fuel are enough. *)
Fixpoint aswap_loop {u8 : Type} (fuel : nat) (x y len i : Z) (m : gmap Z u8)
    : option (gmap Z u8) :=
  if (i <? len)%Z then
    match fuel with
    | O => None
    | S fuel' =>
        match swap_cells (x + i) (y + i) m with
        | Some m' => aswap_loop fuel' x y len (i + 1) m'
        | None => None
        end
    end
  else Some m.

Definition aswap {u8 : Type} (x y len : Z) (m : gmap Z u8) : option (gmap Z u8) :=
  aswap_loop (Z.to_nat len) x y len 0 m.

(** The exchange of two addresses. *)
Definition transpose (p q r : Z) : Z :=
  if decide (r = p) then q else if decide (r = q) then p else r.

(** * Properties *)

Ltac unfold_monad :=
  unfold mbind, M_bind, mret, M_ret, undefined, getArgument, getSubcommand,
    Result_getArgument, load_arg, load_sub, store_param, set_error,
    push_result, set_subcommand, replace_args in *.

(** ** Lookups *)

Section find_named.
Context {A : Type} (nm : A → string).

Lemma find_named_found h v name a :
  find_named nm h v name = Some a → a ≠ nullptr →
  a ∈ v ∧ ∃ o, deref h a = Some o ∧ nm o = name.
Proof.
  induction v as [|x v IH]; simpl; intros Hf Hn.
  - congruence.
  - destruct (deref h x) as [o|] eqn:Hx; [|done].
    destruct (String.eqb (nm o) name) eqn:He.
    + inversion Hf; subst. split; [left|].
      exists o. split; [done|]. by apply String.eqb_eq.
    + destruct (IH Hf Hn) as [Hin Ho]. split; [by right|done].
Qed.

Lemma find_named_defined h v name :
  Forall (λ a, is_Some (deref h a)) v → is_Some (find_named nm h v name).
Proof.
  induction 1 as [|x v [o Hx] _ IH]; simpl; [by eexists|].
  rewrite Hx. destruct (String.eqb (nm o) name); [by eexists|done].
Qed.

Lemma find_named_null h v name :
  find_named nm h v name = Some nullptr →
  ∀ a o, a ∈ v → deref h a = Some o → nm o ≠ name.
Proof.
  induction v as [|x v IH]; simpl; intros Hf a o Hin Ha.
  - by apply elem_of_nil in Hin.
  - destruct (deref h x) as [ox|] eqn:Hx; [|done].
    destruct (String.eqb (nm ox) name) eqn:He.
    + inversion Hf; subst. unfold deref in Hx. by rewrite decide_True in Hx.
    + apply elem_of_cons in Hin as [->|Hin]; [|by eapply IH].
      rewrite Hx in Ha. inversion Ha; subst. by apply String.eqb_neq.
Qed.

(** With unique names the lookup returns the object that carries the name. *)
Lemma find_named_unique h v name a o :
  Forall (λ x, is_Some (deref h x)) v →
  a ∈ v → deref h a = Some o → nm o = name →
  (∀ b ob, b ∈ v → deref h b = Some ob → nm ob = name → b = a) →
  find_named nm h v name = Some a.
Proof.
  intros Hv Hin Ha Hnm Hu.
  destruct (find_named_defined h v name Hv) as [r Hr].
  destruct (decide (r = nullptr)) as [->|Hne].
  - by destruct (find_named_null _ _ _ Hr a o Hin Ha).
  - destruct (find_named_found _ _ _ _ Hr Hne) as [Hrin (ob & Hb & Hbn)].
    rewrite Hr. f_equal. by eapply Hu.
Qed.
End find_named.

(** ** The two flag processors, unfolded *)

Lemma processFlag_unfold name w :
  processFlag name w =
  match find_named CliArg.name (arg_heap w) (CliParser.args (parser w)) name with
  | None => None
  | Some arg =>
      if N.eqb arg nullptr then
        Some (false, fail_with ("Unkown argument " +:+ name) w)
      else
        match deref (arg_heap w) arg with
        | None => None
        | Some a =>
            if CliArg.hasParam a then
              Some (false, fail_with ("Argument " +:+ name +:+ " must have a parameter") w)
            else Some (true, pushed arg w)
        end
  end.
Proof.
  unfold processFlag; unfold_monad.
  destruct (find_named _ _ _ _) as [arg|]; [|done].
  destruct (N.eqb arg nullptr); simpl; [done|].
  destruct (deref _ _) as [a|]; [|done]. by destruct (CliArg.hasParam a).
Qed.

Lemma processArgument_unfold name value w :
  processArgument name value w =
  match find_named CliArg.name (arg_heap w) (CliParser.args (parser w)) name with
  | None => None
  | Some arg =>
      if N.eqb arg nullptr then
        Some (false, fail_with ("Unkown argument " +:+ name) w)
      else
        match deref (arg_heap w) arg with
        | None => None
        | Some a =>
            if CliArg.hasParam a then Some (true, pushed arg (stored arg value a w))
            else
              Some (false, fail_with ("Argument " +:+ name +:+ " can not have a parameter") w)
        end
  end.
Proof.
  unfold processArgument; unfold_monad.
  destruct (find_named _ _ _ _) as [arg|]; [|done].
  destruct (N.eqb arg nullptr); simpl; [done|].
  destruct (deref _ _) as [a|] eqn:Ha; [|done].
  destruct (CliArg.hasParam a); simpl; [|done].
  by rewrite Ha.
Qed.

Lemma getArgument_unfold name w :
  getArgument name w =
  match find_named CliArg.name (arg_heap w) (CliParser.args (parser w)) name with
  | Some a => Some (a, w)
  | None => None
  end.
Proof. done. Qed.

(** What a successful call did. *)
Lemma processFlag_true name w w' :
  processFlag name w = Some (true, w') →
  ∃ arg a, getArgument name w = Some (arg, w) ∧ arg ≠ nullptr ∧ arg ∈ CliParser.args (parser w) ∧
           deref (arg_heap w) arg = Some a ∧ CliArg.name a = name ∧
           CliArg.hasParam a = false ∧ w' = pushed arg w.
Proof.
  rewrite processFlag_unfold, getArgument_unfold.
  destruct (find_named _ _ _ _) as [arg|] eqn:Hf; [|done].
  destruct (N.eqb arg nullptr) eqn:He; [done|].
  apply N.eqb_neq in He.
  destruct (find_named_found _ _ _ _ _ Hf He) as [Hin (o & Ho & Hn)].
  rewrite Ho. destruct (CliArg.hasParam o) eqn:Hp; [done|].
  intros [= <-]. by exists arg, o.
Qed.

Lemma processArgument_true name value w w' :
  processArgument name value w = Some (true, w') →
  ∃ arg a, getArgument name w = Some (arg, w) ∧ arg ≠ nullptr ∧ arg ∈ CliParser.args (parser w) ∧
           deref (arg_heap w) arg = Some a ∧ CliArg.name a = name ∧
           CliArg.hasParam a = true ∧ w' = pushed arg (stored arg value a w).
Proof.
  rewrite processArgument_unfold, getArgument_unfold.
  destruct (find_named _ _ _ _) as [arg|] eqn:Hf; [|done].
  destruct (N.eqb arg nullptr) eqn:He; [done|].
  apply N.eqb_neq in He.
  destruct (find_named_found _ _ _ _ _ Hf He) as [Hin (o & Ho & Hn)].
  rewrite Ho. destruct (CliArg.hasParam o) eqn:Hp; [|done].
  intros [= <-]. by exists arg, o.
Qed.

(** ** The loop *)

Lemma loop_body_next toks i w i' w' :
  loop_body toks i w = Some (Some i', w') → i < i'.
Proof.
  unfold loop_body.
  destruct (_ && _ && _).
  - unfold mbind, M_bind, mret, M_ret.
    destruct (processArgument _ _ w) as [[[] w1]|]; [|done..].
    intros [= <- _]. lia.
  - destruct (starts_dash (tok toks i)).
    + unfold mbind, M_bind, mret, M_ret.
      destruct (processFlag _ w) as [[[] w1]|]; [|done..].
      intros [= <- _]. lia.
    + unfold_monad. done.
Qed.

Lemma scan_fuel f1 : ∀ f2 toks i w,
  length toks - i ≤ f1 → length toks - i ≤ f2 →
  scan f1 toks i w = scan f2 toks i w.
Proof.
  induction f1 as [|f1 IH]; intros f2 toks i w H1 H2; simpl.
  - destruct f2; simpl; (destruct (i <? length toks) eqn:Hi; [|done]);
      apply Nat.ltb_lt in Hi; lia.
  - destruct f2; simpl; (destruct (i <? length toks) eqn:Hi; [|done]);
      apply Nat.ltb_lt in Hi; [lia|].
    unfold mbind, M_bind.
    destruct (loop_body toks i w) as [[[i'|] w']|] eqn:Hb; [|done..].
    apply loop_body_next in Hb. apply IH; lia.
Qed.

Lemma scan_step toks i w i' w' :
  i < length toks → loop_body toks i w = Some (Some i', w') →
  scan (length toks - i) toks i w = scan (length toks - i') toks i' w'.
Proof.
  intros Hi Hb.
  destruct (length toks - i) as [|f] eqn:Hf; [lia|].
  simpl. apply Nat.ltb_lt in Hi as Hi'. rewrite Hi'.
  unfold mbind, M_bind. rewrite Hb.
  apply loop_body_next in Hb. apply scan_fuel; lia.
Qed.

Lemma scan_fail toks i w w' :
  i < length toks → loop_body toks i w = Some (None, w') →
  scan (length toks - i) toks i w = Some (false, w').
Proof.
  intros Hi Hb.
  destruct (length toks - i) as [|f] eqn:Hf; [lia|].
  simpl. apply Nat.ltb_lt in Hi as Hi'. rewrite Hi'.
  unfold mbind, M_bind. by rewrite Hb.
Qed.

Lemma scan_done toks i f w :
  length toks ≤ i →
  scan f toks i w = check_required (CliParser.args (parser w)) w.
Proof.
  intros Hi. destruct f; simpl;
    (destruct (i <? length toks) eqn:Hlt; [apply Nat.ltb_lt in Hlt; lia|done]).
Qed.

Lemma loop_body_value toks i w :
  i + 2 ≤ length toks → starts_dash (tok toks i) = true →
  starts_dash (tok toks (i + 1)) = false →
  loop_body toks i w =
  match processArgument (skip1 (tok toks i)) (tok toks (i + 1)) w with
  | Some (ok, w') => Some (if ok then Some (i + 2) else None, w')
  | None => None
  end.
Proof.
  intros Hi H1 H2. unfold loop_body. rewrite H1, H2.
  apply Nat.leb_le in Hi. rewrite Hi. simpl.
  unfold mbind, M_bind, mret, M_ret.
  by destruct (processArgument _ _ w) as [[ok w']|].
Qed.

Lemma loop_body_flag toks i w :
  starts_dash (tok toks i) = true →
  (i + 2 ≤ length toks → starts_dash (tok toks (i + 1)) = true) →
  loop_body toks i w =
  match processFlag (skip1 (tok toks i)) w with
  | Some (ok, w') => Some (if ok then Some (i + 1) else None, w')
  | None => None
  end.
Proof.
  intros H1 H2. unfold loop_body. rewrite H1.
  replace ((i + 2 <=? length toks) && true && negb (starts_dash (tok toks (i + 1))))
    with false.
  - unfold mbind, M_bind, mret, M_ret.
    by destruct (processFlag _ w) as [[ok w']|].
  - destruct (i + 2 <=? length toks) eqn:Hi; [|done].
    apply Nat.leb_le in Hi. by rewrite (H2 Hi).
Qed.

Lemma loop_body_weird toks i w :
  starts_dash (tok toks i) = false →
  loop_body toks i w = Some (None, fail_with "Weird input" w).
Proof.
  intros H1. unfold loop_body. rewrite H1.
  by rewrite andb_false_r.
Qed.

Lemma scan_at_bound toks w0 i ms w : scan_at toks w0 i ms w → i ≤ length toks.
Proof. induction 1; lia. Qed.

Lemma scan_at_scan toks w0 i ms w :
  scan_at toks w0 i ms w →
  processArguments toks w0 = scan (length toks - i) toks i w.
Proof.
  induction 1 as [|i ms w a w' _ IH Hi H1 H2 _ Hp|i ms w a w' _ IH Hi H1 H2 _ Hp].
  - unfold processArguments. by rewrite Nat.sub_0_r.
  - rewrite IH. apply scan_step; [lia|].
    rewrite loop_body_value by done. by rewrite Hp.
  - rewrite IH. apply scan_step; [lia|].
    rewrite loop_body_flag by done. by rewrite Hp.
Qed.

Lemma enters_parse argv w0 toks w1 :
  enters argv w0 toks w1 → parse argv w0 = processArguments toks w1.
Proof.
  intros [Hl Hs|c cmd Hl Hs Hc Hd]; unfold parse.
  - destruct (length argv <? 2) eqn:Hlt; [apply Nat.ltb_lt in Hlt; lia|].
    unfold mbind, M_bind. by rewrite Hs.
  - destruct (length argv <? 2) eqn:Hlt; [apply Nat.ltb_lt in Hlt; lia|].
    unfold mbind, M_bind. rewrite Hs.
    apply N.eqb_neq in Hc. rewrite Hc. simpl.
    unfold processSubcommand, set_subcommand, load_sub, replace_args,
      mbind, M_bind. simpl. by rewrite Hd.
Qed.

(** The outcome of [parse] is the outcome of the loop from any point that the
    scan reaches. *)
Lemma parse_at argv w0 toks w1 i ms w :
  enters argv w0 toks w1 → scan_at toks w1 i ms w →
  parse argv w0 = scan (length toks - i) toks i w.
Proof.
  intros He Hs. rewrite (enters_parse _ _ _ _ He). by eapply scan_at_scan.
Qed.

(** ** What the scan preserves *)

Lemma frame_lookup h h' a o :
  frame h = frame h' → deref h a = Some o →
  ∃ o', deref h' a = Some o' ∧ CliArg.set_param "" o' = CliArg.set_param "" o.
Proof.
  unfold deref, frame. intros Hf. destruct (decide (a = nullptr)); [done|].
  intros Ha. assert (Hl : (CliArg.set_param "" <$> h') !! a = Some (CliArg.set_param "" o)).
  { rewrite <- Hf. by rewrite lookup_fmap, Ha. }
  rewrite lookup_fmap in Hl. destruct (h' !! a) as [o'|]; [|done].
  exists o'. split; [done|]. simpl in Hl. congruence.
Qed.

Lemma set_param_fields o o' :
  CliArg.set_param "" o' = CliArg.set_param "" o →
  CliArg.name o' = CliArg.name o ∧ CliArg.hasParam o' = CliArg.hasParam o ∧
  CliArg.required o' = CliArg.required o.
Proof. destruct o, o'. unfold CliArg.set_param. simpl. by intros [= -> _ -> ->]. Qed.

Lemma frame_stored arg value a w :
  deref (arg_heap w) arg = Some a →
  frame (arg_heap (stored arg value a w)) = frame (arg_heap w).
Proof.
  unfold deref, frame, stored. simpl. destruct (decide (arg = nullptr)); [done|].
  intros Ha. rewrite fmap_insert. apply insert_id.
  rewrite lookup_fmap, Ha. by destruct a.
Qed.

Lemma frame_find_named h h' v name :
  frame h = frame h' →
  find_named CliArg.name h v name = find_named CliArg.name h' v name.
Proof.
  intros Hf. induction v as [|x v IH]; simpl; [done|].
  destruct (deref h x) as [o|] eqn:Hx.
  - destruct (frame_lookup _ _ _ _ Hf Hx) as (o' & -> & He).
    apply set_param_fields in He as (-> & _). by rewrite IH.
  - destruct (deref h' x) as [o'|] eqn:Hx'; [|done].
    symmetry in Hf. destruct (frame_lookup _ _ _ _ Hf Hx') as (o & Ho & _).
    congruence.
Qed.

Lemma enters_result_args argv w0 toks w1 :
  enters argv w0 toks w1 →
  CliParserResult.args (result w1) = CliParserResult.args (result w0) ∧
  arg_heap w1 = arg_heap w0.
Proof. by intros [|]. Qed.

(** The scan leaves the parser, the subcommand objects and every field of
    the argument objects but [param] alone; it appends the matched objects,
    all of the active scope, to the result. *)
Lemma scan_at_inv toks w0 i ms w :
  scan_at toks w0 i ms w →
  parser w = parser w0 ∧ sub_heap w = sub_heap w0 ∧
  frame (arg_heap w) = frame (arg_heap w0) ∧
  CliParserResult.errorMessage (result w) = CliParserResult.errorMessage (result w0) ∧
  CliParserResult.subcommand (result w) = CliParserResult.subcommand (result w0) ∧
  CliParserResult.args (result w) = CliParserResult.args (result w0) ++ ms.*1 ∧
  Forall (λ a, a ∈ CliParser.args (parser w0) ∧ is_Some (deref (arg_heap w0) a)) ms.*1.
Proof.
  induction 1 as [|i ms w a w' _ IH _ _ _ Hg Hp|i ms w a w' _ IH _ _ _ Hg Hp].
  - simpl. rewrite app_nil_r. by repeat split.
  - destruct IH as (Hpa & Hsu & Hfr & Her & Hsc & Hra & Hin).
    apply processArgument_true in Hp as (arg & o & Hg' & Hn & Hi & Ho & _ & _ & ->).
    rewrite Hg in Hg'. inversion Hg'; subst arg.
    destruct (frame_lookup _ _ _ _ Hfr Ho) as (o' & Ho' & _).
    simpl. rewrite fmap_app. simpl. rewrite Hra, <- app_assoc.
    repeat split; try done.
    + rewrite <- Hfr. by apply (frame_stored a _ o w).
    + apply Forall_app. split; [done|]. apply Forall_singleton.
      rewrite <- Hpa. split; [done|]. by eexists.
  - destruct IH as (Hpa & Hsu & Hfr & Her & Hsc & Hra & Hin).
    apply processFlag_true in Hp as (arg & o & Hg' & Hn & Hi & Ho & _ & _ & ->).
    rewrite Hg in Hg'. inversion Hg'; subst arg.
    destruct (frame_lookup _ _ _ _ Hfr Ho) as (o' & Ho' & _).
    simpl. rewrite fmap_app. simpl. rewrite Hra, <- app_assoc.
    repeat split; try done.
    apply Forall_app. split; [done|]. apply Forall_singleton.
    rewrite <- Hpa. split; [done|]. by eexists.
Qed.

Lemma snoc_split {A : Type} (l l1 l2 : list A) (e x : A) :
  l ++ [e] = l1 ++ x :: l2 →
  (l2 = [] ∧ l = l1 ∧ e = x) ∨ (∃ l2', l2 = l2' ++ [e] ∧ l = l1 ++ x :: l2').
Proof.
  destruct l2 as [|y l2 _] using rev_ind; intros H.
  - left. apply app_inj_tail in H as [-> ->]. done.
  - right. exists l2.
    change (l1 ++ x :: l2 ++ [y]) with (l1 ++ (x :: l2) ++ [y]) in H.
    rewrite app_assoc in H. apply app_inj_tail in H as [-> ->]. done.
Qed.

(** The last value consumed for an argument object is the one in its
    [param] field. *)
Lemma scan_at_values toks w0 i ms w :
  scan_at toks w0 i ms w →
  ∀ ms1 a v ms2, ms = ms1 ++ (a, Some v) :: ms2 →
    (∀ v', (a, Some v') ∉ ms2) →
    ∃ o, deref (arg_heap w) a = Some o ∧ CliArg.param o = v.
Proof.
  induction 1 as [|i ms w b w' _ IH _ _ _ Hg Hp|i ms w b w' _ IH _ _ _ Hg Hp];
    intros ms1 a v ms2 Hms Hlast.
  - by destruct ms1.
  - apply processArgument_true in Hp as (arg & o & Hg' & Hn & _ & Ho & _ & _ & ->).
    rewrite Hg in Hg'. inversion Hg'; subst arg.
    apply snoc_split in Hms as [(-> & -> & [= -> ->])|(ms2' & -> & ->)].
    + exists (CliArg.set_param v o). split; [|done].
      unfold deref, stored, pushed. simpl. rewrite decide_False by done.
      apply lookup_insert_eq.
    + destruct (IH ms1 a v ms2' eq_refl) as (oa & Hoa & Hv).
      { intros v' Hin. apply (Hlast v'). apply elem_of_app. by left. }
      assert (a ≠ b).
      { intros ->. apply (Hlast (tok toks (i + 1))). apply elem_of_app. right.
        by apply list_elem_of_singleton. }
      exists oa. split; [|done]. unfold deref, stored, pushed in *. simpl.
      destruct (decide (a = nullptr)); [done|]. by rewrite lookup_insert_ne.
  - apply processFlag_true in Hp as (arg & o & _ & _ & _ & _ & _ & _ & ->).
    apply snoc_split in Hms as [(_ & _ & [=])|(ms2' & -> & ->)].
    destruct (IH ms1 a v ms2' eq_refl) as (oa & Hoa & Hv); [|by exists oa].
    intros v' Hin. apply (Hlast v'). apply elem_of_app. by left.
Qed.

(** An iteration that returns [false] only writes the error message. *)
Lemma loop_body_false toks i w w' :
  loop_body toks i w = Some (None, w') → ∃ msg, w' = fail_with msg w.
Proof.
  unfold loop_body. destruct (_ && _ && _).
  - unfold mbind, M_bind, mret, M_ret. rewrite processArgument_unfold.
    destruct (find_named _ _ _ _) as [arg|]; [|done].
    destruct (N.eqb arg nullptr); [intros [= <-]; by eexists|].
    destruct (deref _ _) as [a|]; [|done].
    destruct (CliArg.hasParam a); [done|]. intros [= <-]; by eexists.
  - destruct (starts_dash (tok toks i)).
    + unfold mbind, M_bind, mret, M_ret. rewrite processFlag_unfold.
      destruct (find_named _ _ _ _) as [arg|]; [|done].
      destruct (N.eqb arg nullptr); [intros [= <-]; by eexists|].
      destruct (deref _ _) as [a|]; [|done].
      destruct (CliArg.hasParam a); [|done]. intros [= <-]; by eexists.
    + unfold_monad. intros [= <-]. by eexists.
Qed.

(** ** Failures of the scan *)

(** C9: whenever the token under the loop index does not start with ['-'],
    [parse] returns [false] with the message "Weird input"; nothing else of
    the world reached so far is touched. *)
Theorem weird_input argv w0 toks w1 i ms w :
  enters argv w0 toks w1 →
  scan_at toks w1 i ms w →
  i < length toks →
  starts_dash (tok toks i) = false →
  parse argv w0 = Some (false, fail_with "Weird input" w).
Proof.
  intros He Hs Hi Hd.
  rewrite (parse_at _ _ _ _ _ _ _ He Hs).
  apply scan_fail; [done|]. by apply loop_body_weird.
Qed.

(** [pixl -out a.png stray]: the third token is reached after [-out a.png]
    was matched, and is rejected. *)
Lemma weird_input_witness :
  parse ["pixl"; "-out"; "a.png"; "stray"] demo =
  Some (false, fail_with "Weird input"
                 (pushed 1%N (stored 1%N "a.png" (CliArg.new "out" "output file" true true) demo))).
Proof.
  apply (weird_input ["pixl"; "-out"; "a.png"; "stray"] demo
           ["-out"; "a.png"; "stray"] demo 2 [(1%N, Some "a.png")]).
  - apply enters_flat; [simpl; lia|reflexivity].
  - apply (scan_at_value ["-out"; "a.png"; "stray"] demo 0 [] demo 1%N);
      [apply scan_at_start|simpl; lia|reflexivity..].
  - simpl; lia.
  - reflexivity.
Defined.

(** C7: a flag without a value token behind it (it is the last token, or the
    next token starts with ['-']) whose argument object takes a parameter
    makes [parse] return [false] with "Argument <name> must have a
    parameter".  The final world is the one reached before the flag with
    only the message written: the next token was not stored as a value and
    the flag was not appended to the result. *)
Theorem flag_needs_parameter argv w0 toks w1 i ms w arg a :
  enters argv w0 toks w1 →
  scan_at toks w1 i ms w →
  i < length toks →
  starts_dash (tok toks i) = true →
  (i + 2 ≤ length toks → starts_dash (tok toks (i + 1)) = true) →
  getArgument (skip1 (tok toks i)) w = Some (arg, w) →
  deref (arg_heap w) arg = Some a →
  CliArg.hasParam a = true →
  ∃ w', parse argv w0 = Some (false, w') ∧
        w' = fail_with ("Argument " +:+ skip1 (tok toks i) +:+ " must have a parameter") w ∧
        arg_heap w' = arg_heap w ∧
        CliParserResult.args (result w') = CliParserResult.args (result w).
Proof.
  intros He Hs Hi Hd Hn Hg Ha Hp. eexists. split; [|done].
  rewrite (parse_at _ _ _ _ _ _ _ He Hs).
  apply scan_fail; [done|]. rewrite loop_body_flag by done.
  rewrite processFlag_unfold. rewrite getArgument_unfold in Hg.
  destruct (find_named _ _ _ _) as [x|]; [|done]. inversion Hg; subst x.
  destruct (N.eqb arg nullptr) eqn:Hz.
  - apply N.eqb_eq in Hz. subst arg. done.
  - by rewrite Ha, Hp.
Qed.

(** [pixl -out -verbose]: [-out] takes a value but is followed by a flag. *)
Lemma flag_needs_parameter_witness :
  ∃ w', parse ["pixl"; "-out"; "-verbose"] demo = Some (false, w') ∧
        w' = fail_with "Argument out must have a parameter" demo ∧
        arg_heap w' = arg_heap demo ∧
        CliParserResult.args (result w') = CliParserResult.args (result demo).
Proof.
  apply (flag_needs_parameter ["pixl"; "-out"; "-verbose"] demo
           ["-out"; "-verbose"] demo 0 [] demo 1%N
           (CliArg.new "out" "output file" true true)).
  - apply enters_flat; [simpl; lia|reflexivity].
  - apply scan_at_start.
  - simpl; lia.
  - reflexivity.
  - reflexivity.
  - reflexivity.
  - reflexivity.
  - reflexivity.
Defined.

(** C3, as the code has it: a flag followed by a value token whose argument
    object takes no parameter makes [parse] return [false] with the message
    "Argument <name> can not have a parameter". *)
Theorem value_for_plain_flag argv w0 toks w1 i ms w arg a :
  enters argv w0 toks w1 →
  scan_at toks w1 i ms w →
  i + 2 ≤ length toks →
  starts_dash (tok toks i) = true →
  starts_dash (tok toks (i + 1)) = false →
  getArgument (skip1 (tok toks i)) w = Some (arg, w) →
  deref (arg_heap w) arg = Some a →
  CliArg.hasParam a = false →
  parse argv w0 =
  Some (false, fail_with ("Argument " +:+ skip1 (tok toks i) +:+ " can not have a parameter") w).
Proof.
  intros He Hs Hi Hd Hn Hg Ha Hp.
  rewrite (parse_at _ _ _ _ _ _ _ He Hs).
  apply scan_fail; [lia|]. rewrite loop_body_value by done.
  rewrite processArgument_unfold. rewrite getArgument_unfold in Hg.
  destruct (find_named _ _ _ _) as [x|]; [|done]. inversion Hg; subst x.
  destruct (N.eqb arg nullptr) eqn:Hz.
  - apply N.eqb_eq in Hz. subst arg. done.
  - by rewrite Ha, Hp.
Qed.

Lemma value_for_plain_flag_witness :
  parse ["pixl"; "-verbose"; "x"] demo =
  Some (false, fail_with "Argument verbose can not have a parameter" demo).
Proof.
  apply (value_for_plain_flag ["pixl"; "-verbose"; "x"] demo
           ["-verbose"; "x"] demo 0 [] demo 2%N
           (CliArg.new "verbose" "print more" false false)).
  - apply enters_flat; [simpl; lia|reflexivity].
  - apply scan_at_start.
  - simpl; lia.
  - reflexivity.
  - reflexivity.
  - reflexivity.
  - reflexivity.
  - reflexivity.
Defined.

(** C3, as stated, fails on [pixl -verbose x]: [-verbose] starts with ['-'],
    [x] does not, [verbose] is found in the active scope and takes no
    parameter, and the message is not "Argument verbose must have a
    parameter". *)
Lemma plain_flag_message_differs :
  starts_dash "-verbose" = true ∧ starts_dash "x" = false ∧
  getArgument "verbose" demo = Some (2%N, demo) ∧
  CliArg.hasParam <$> deref (arg_heap demo) 2%N = Some false ∧
  ¬ ∃ w', parse ["pixl"; "-verbose"; "x"] demo = Some (false, w') ∧
          CliParserResult.errorMessage (result w') = "Argument verbose must have a parameter".
Proof.
  repeat split; try reflexivity.
  intros (w' & Hp & Hm).
  assert (Hr : parse ["pixl"; "-verbose"; "x"] demo =
               Some (false, fail_with "Argument verbose can not have a parameter" demo))
    by reflexivity.
  rewrite Hr in Hp. inversion Hp; subst w'. discriminate Hm.
Qed.

(** C6, on the code: a flag whose name is not in the active scope is
    rejected, bare or with a value behind it, but the message the code
    writes is spelt "Unkown argument <name>". *)
Theorem unknown_argument_message :
  parse ["pixl"; "-unknown"] demo =
    Some (false, fail_with "Unkown argument unknown" demo) ∧
  parse ["pixl"; "-unknown"; "x"] demo =
    Some (false, fail_with "Unkown argument unknown" demo) ∧
  CliParserResult.errorMessage (result (fail_with "Unkown argument unknown" demo))
    ≠ "Unknown argument unknown".
Proof. repeat split; try reflexivity. discriminate. Qed.

(** C10: when an iteration of the scan returns [false], [parse] returns
    [false] in the world that iteration leaves: the result still lists every
    argument object matched before, in order, and every argument object
    still holds the last value that was consumed for it. *)
Theorem failed_parse_keeps_effects argv w0 toks w1 i ms w w' :
  enters argv w0 toks w1 →
  scan_at toks w1 i ms w →
  i < length toks →
  loop_body toks i w = Some (None, w') →
  parse argv w0 = Some (false, w') ∧
  CliParserResult.args (result w') = CliParserResult.args (result w0) ++ ms.*1 ∧
  ∀ ms1 a v ms2,
    ms = ms1 ++ (a, Some v) :: ms2 →
    (∀ v', (a, Some v') ∉ ms2) →
    ∃ o, deref (arg_heap w') a = Some o ∧ CliArg.param o = v.
Proof.
  intros He Hs Hi Hb. split; [|split].
  - rewrite (parse_at _ _ _ _ _ _ _ He Hs). by apply scan_fail.
  - destruct (loop_body_false _ _ _ _ Hb) as [msg ->]. simpl.
    destruct (scan_at_inv _ _ _ _ _ Hs) as (_ & _ & _ & _ & _ & -> & _).
    by destruct (enters_result_args _ _ _ _ He) as [-> _].
  - destruct (loop_body_false _ _ _ _ Hb) as [msg ->]. simpl.
    by apply (scan_at_values _ _ _ _ _ Hs).
Qed.

(** [pixl -out a.png -unknown]: the parse fails at the third token; [out] is
    in the result and its object holds ["a.png"]. *)
Lemma failed_parse_keeps_effects_witness :
  let w := pushed 1%N (stored 1%N "a.png" (CliArg.new "out" "output file" true true) demo) in
  let w' := fail_with "Unkown argument unknown" w in
  parse ["pixl"; "-out"; "a.png"; "-unknown"] demo = Some (false, w') ∧
  CliParserResult.args (result w') = CliParserResult.args (result demo) ++ [1%N] ∧
  ∀ ms1 a v ms2,
    [(1%N, Some "a.png")] = ms1 ++ (a, Some v) :: ms2 →
    (∀ v', (a, Some v') ∉ ms2) →
    ∃ o, deref (arg_heap w') a = Some o ∧ CliArg.param o = v.
Proof.
  intros w w'.
  apply (failed_parse_keeps_effects ["pixl"; "-out"; "a.png"; "-unknown"] demo
           ["-out"; "a.png"; "-unknown"] demo 2 [(1%N, Some "a.png")] w w').
  - apply enters_flat; [simpl; lia|reflexivity].
  - apply (scan_at_value ["-out"; "a.png"; "-unknown"] demo 0 [] demo 1%N);
      [apply scan_at_start|simpl; lia|reflexivity..].
  - simpl; lia.
  - reflexivity.
Defined.

(** ** The check of the required arguments *)

Lemma check_required_missing w pre arg post a :
  Forall (λ r, is_Some (deref (arg_heap w) r)) (CliParserResult.args (result w)) →
  (∀ r o, r ∈ CliParserResult.args (result w) → deref (arg_heap w) r = Some o →
          CliArg.name o = CliArg.name a → r = arg) →
  deref (arg_heap w) arg = Some a →
  CliArg.required a = true →
  arg ∉ CliParserResult.args (result w) →
  Forall (λ b, ∃ ob, deref (arg_heap w) b = Some ob ∧
                     (CliArg.required ob = true → b ∈ CliParserResult.args (result w))) pre →
  check_required (pre ++ arg :: post) w =
  Some (false, fail_with ("Missing required argument: " +:+ CliArg.name a) w).
Proof.
  intros Hv Hu Ha Hr Hnin Hpre.
  induction Hpre as [|b pre (ob & Hb & Hreq) _ IH]; simpl; unfold_monad.
  - rewrite Ha, Hr. simpl.
    destruct (find_named_defined CliArg.name _ _ (CliArg.name a) Hv) as [r Hf].
    rewrite Hf. destruct (N.eqb r nullptr) eqn:Hz; [done|].
    apply N.eqb_neq in Hz.
    destruct (find_named_found _ _ _ _ _ Hf Hz) as [Hin (o & Ho & Hn)].
    destruct Hnin. by rewrite <- (Hu r o Hin Ho Hn).
  - rewrite Hb. destruct (CliArg.required ob) eqn:Hrb; simpl; [|apply IH].
    destruct (find_named_defined CliArg.name _ _ (CliArg.name ob) Hv) as [r Hf].
    rewrite Hf. destruct (N.eqb r nullptr) eqn:Hz; [|apply IH].
    apply N.eqb_eq in Hz. subst r.
    by destruct (find_named_null _ _ _ _ Hf b ob (Hreq eq_refl) Hb).
Qed.

(** C8: when the scan has consumed all tokens, and [arg] is the first
    required argument object of the active scope (the parser's argument
    vector as [parse] set it up: the subcommand's once a subcommand was
    chosen) that is not among the matched ones, [parse] returns [false] with
    "Missing required argument: <name>".  The result object is fresh and the
    names in the active scope are unique, as the data model requires. *)
Theorem missing_required_argument argv w0 toks w1 ms w pre arg post a :
  enters argv w0 toks w1 →
  CliParserResult.args (result w0) = [] →
  scan_at toks w1 (length toks) ms w →
  unique_names (arg_heap w1) (CliParser.args (parser w1)) →
  CliParser.args (parser w1) = pre ++ arg :: post →
  deref (arg_heap w1) arg = Some a →
  CliArg.required a = true →
  arg ∉ CliParserResult.args (result w) →
  Forall (λ b, ∃ ob, deref (arg_heap w1) b = Some ob ∧
                     (CliArg.required ob = true → b ∈ CliParserResult.args (result w))) pre →
  parse argv w0 =
  Some (false, fail_with ("Missing required argument: " +:+ CliArg.name a) w).
Proof.
  intros He Hfresh Hs Hu Hsplit Ha Hr Hnin Hpre.
  rewrite (parse_at _ _ _ _ _ _ _ He Hs), scan_done by done.
  destruct (scan_at_inv _ _ _ _ _ Hs) as (Hpa & _ & Hfr & _ & _ & Hra & Hin).
  destruct (enters_result_args _ _ _ _ He) as [Hra1 _].
  rewrite Hra1, Hfresh in Hra. simpl in Hra.
  rewrite Hpa, Hsplit.
  symmetry in Hfr.
  destruct (frame_lookup _ _ _ _ Hfr Ha) as (a' & Ha' & Hsame).
  apply set_param_fields in Hsame as (Hn & _ & Hq).
  rewrite <- Hn. apply check_required_missing.
  - rewrite Hra. eapply Forall_impl; [exact Hin|]. simpl.
    intros r [_ [o Ho]]. destruct (frame_lookup _ _ _ _ Hfr Ho) as (o' & Ho' & _).
    by eexists.
  - intros r o Hrin Ho Hname. rewrite Hra in Hrin.
    rewrite Forall_forall in Hin. destruct (Hin r Hrin) as [Hscope [o1 Ho1]].
    destruct (frame_lookup _ _ _ _ Hfr Ho1) as (o' & Ho' & Hsame).
    rewrite Ho in Ho'. inversion Ho'; subst o'.
    apply set_param_fields in Hsame as (Hn1 & _).
    apply (Hu r arg o1 a); [done| |done|done|congruence].
    rewrite Hsplit. apply elem_of_app. right. left.
  - done.
  - congruence.
  - done.
  - eapply Forall_impl; [exact Hpre|]. simpl.
    intros b (ob & Hb & Hreq).
    destruct (frame_lookup _ _ _ _ Hfr Hb) as (ob' & Hb' & Hsame).
    apply set_param_fields in Hsame as (_ & _ & Hq').
    exists ob'. split; [done|]. intros Hrb. apply Hreq. congruence.
Qed.

Lemma demo_convert_unique_names : unique_names (arg_heap demo) [3%N; 4%N].
Proof.
  intros a b oa ob Ha Hb Hoa Hob Hn.
  apply elem_of_cons in Ha as [->|Ha]; [|apply list_elem_of_singleton in Ha as ->];
    (apply elem_of_cons in Hb as [->|Hb]; [|apply list_elem_of_singleton in Hb as ->]);
    try done; vm_compute in Hoa, Hob; inversion Hoa; inversion Hob; subst; discriminate Hn.
Qed.

(** [pixl convert -quality 9]: the scan succeeds, and the required [-to] of
    the subcommand, declared after [-quality], is missing. *)
Lemma missing_required_argument_witness :
  let w1 := in_subcommand 7%N (CliSubcommand.mk "convert" [3%N; 4%N]) demo in
  let w := pushed 3%N (stored 3%N "9" (CliArg.new "quality" "compression quality" true false) w1) in
  parse ["pixl"; "convert"; "-quality"; "9"] demo =
  Some (false, fail_with "Missing required argument: to" w).
Proof.
  intros w1 w.
  apply (missing_required_argument ["pixl"; "convert"; "-quality"; "9"] demo
           ["-quality"; "9"] w1 [(3%N, Some "9")] w [3%N] 4%N []
           (CliArg.new "to" "target format" true true)).
  - apply (enters_sub ["pixl"; "convert"; "-quality"; "9"] demo 7%N
             (CliSubcommand.mk "convert" [3%N; 4%N]));
      [simpl; lia|reflexivity|done|reflexivity].
  - reflexivity.
  - apply (scan_at_value ["-quality"; "9"] w1 0 [] w1 3%N);
      [apply scan_at_start|simpl; lia|reflexivity..].
  - exact demo_convert_unique_names.
  - reflexivity.
  - reflexivity.
  - reflexivity.
  - simpl. intros H. apply list_elem_of_singleton in H. discriminate H.
  - apply Forall_singleton. eexists. split; [reflexivity|].
    intros _. simpl. apply list_elem_of_singleton. reflexivity.
Defined.

(** ** The scan is defined on well-formed worlds *)

Lemma evolves_refl w : evolves w w.
Proof.
  repeat split. exists []. by rewrite app_nil_r.
Qed.

Lemma evolves_trans w1 w2 w3 : evolves w1 w2 → evolves w2 w3 → evolves w1 w3.
Proof.
  intros (Hp & Hs & Hf & Hc & l & Hl & Hin) (Hp' & Hs' & Hf' & Hc' & l' & Hl' & Hin').
  repeat split; try congruence.
  exists (l ++ l'). split.
  - by rewrite Hl', Hl, app_assoc.
  - apply Forall_app. split; [done|]. by rewrite <- Hp.
Qed.

Lemma evolves_fail_with msg w : evolves w (fail_with msg w).
Proof.
  repeat split. exists []. simpl. by rewrite app_nil_r.
Qed.

Lemma evolves_pushed arg w :
  arg ∈ CliParser.args (parser w) → evolves w (pushed arg w).
Proof.
  intros Hin. repeat split. exists [arg]. split; [done|]. by apply Forall_singleton.
Qed.

Lemma evolves_stored arg value a w :
  deref (arg_heap w) arg = Some a → evolves w (stored arg value a w).
Proof.
  intros Ha. repeat split.
  - by apply frame_stored.
  - exists []. simpl. by rewrite app_nil_r.
Qed.

Lemma valid_arg_frame w w' a :
  frame (arg_heap w') = frame (arg_heap w) → valid_arg w a → valid_arg w' a.
Proof.
  intros Hf [o Ho]. symmetry in Hf.
  destruct (frame_lookup _ _ _ _ Hf Ho) as (o' & Ho' & _). by exists o'.
Qed.

Lemma evolves_ready w w' : scan_ready w → evolves w w' → scan_ready w'.
Proof.
  intros [Ha Hr] (Hp & _ & Hf & _ & l & Hl & Hin). split.
  - rewrite Hp. eapply Forall_impl; [exact Ha|].
    intros a. by apply valid_arg_frame.
  - rewrite Hl. apply Forall_app. split.
    + eapply Forall_impl; [exact Hr|]. intros a. by apply valid_arg_frame.
    + rewrite Forall_forall in Ha. rewrite Forall_forall in Hin.
      apply Forall_forall. intros a Hal.
      apply (valid_arg_frame w); [done|]. apply Ha. by apply Hin.
Qed.

Lemma processFlag_defined name w :
  Forall (valid_arg w) (CliParser.args (parser w)) →
  ∃ ok w', processFlag name w = Some (ok, w') ∧ evolves w w'.
Proof.
  intros Hv. rewrite processFlag_unfold.
  destruct (find_named_defined CliArg.name _ _ name Hv) as [arg Hf]. rewrite Hf.
  destruct (N.eqb arg nullptr) eqn:Hz.
  - eexists _, _. split; [done|]. apply evolves_fail_with.
  - apply N.eqb_neq in Hz.
    destruct (find_named_found _ _ _ _ _ Hf Hz) as [Hin (o & Ho & _)].
    rewrite Ho. destruct (CliArg.hasParam o).
    + eexists _, _. split; [done|]. apply evolves_fail_with.
    + eexists _, _. split; [done|]. by apply evolves_pushed.
Qed.

Lemma processArgument_defined name value w :
  Forall (valid_arg w) (CliParser.args (parser w)) →
  ∃ ok w', processArgument name value w = Some (ok, w') ∧ evolves w w'.
Proof.
  intros Hv. rewrite processArgument_unfold.
  destruct (find_named_defined CliArg.name _ _ name Hv) as [arg Hf]. rewrite Hf.
  destruct (N.eqb arg nullptr) eqn:Hz.
  - eexists _, _. split; [done|]. apply evolves_fail_with.
  - apply N.eqb_neq in Hz.
    destruct (find_named_found _ _ _ _ _ Hf Hz) as [Hin (o & Ho & _)].
    rewrite Ho. destruct (CliArg.hasParam o).
    + eexists _, _. split; [done|].
      eapply evolves_trans; [by apply (evolves_stored arg value o)|].
      by apply evolves_pushed.
    + eexists _, _. split; [done|]. apply evolves_fail_with.
Qed.

Lemma loop_body_defined toks i w :
  Forall (valid_arg w) (CliParser.args (parser w)) →
  ∃ r w', loop_body toks i w = Some (r, w') ∧ evolves w w'.
Proof.
  intros Hv. unfold loop_body. destruct (_ && _ && _).
  - destruct (processArgument_defined (skip1 (tok toks i)) (tok toks (i + 1)) w Hv)
      as (ok & w' & Hp & He).
    unfold mbind, M_bind, mret, M_ret. rewrite Hp. by eexists _, _.
  - destruct (starts_dash (tok toks i)).
    + destruct (processFlag_defined (skip1 (tok toks i)) w Hv) as (ok & w' & Hp & He).
      unfold mbind, M_bind, mret, M_ret. rewrite Hp. by eexists _, _.
    + unfold_monad. eexists _, _. split; [done|]. apply evolves_fail_with.
Qed.

Lemma check_required_defined v w :
  Forall (valid_arg w) v →
  Forall (valid_arg w) (CliParserResult.args (result w)) →
  ∃ ok w', check_required v w = Some (ok, w') ∧ evolves w w'.
Proof.
  intros Hv Hr. induction Hv as [|arg v [a Ha] _ IH]; simpl.
  - eexists _, _. split; [done|]. apply evolves_refl.
  - unfold_monad. rewrite Ha. destruct (CliArg.required a); simpl; [|done].
    destruct (find_named_defined CliArg.name _ _ (CliArg.name a) Hr) as [r Hf].
    rewrite Hf. destruct (N.eqb r nullptr); [|done].
    eexists _, _. split; [done|]. apply evolves_fail_with.
Qed.

Lemma scan_defined fuel : ∀ toks i w,
  length toks - i ≤ fuel → scan_ready w →
  ∃ ok w', scan fuel toks i w = Some (ok, w') ∧ evolves w w'.
Proof.
  induction fuel as [|fuel IH]; intros toks i w Hfuel Hw.
  - rewrite scan_done by lia. destruct Hw. by apply check_required_defined.
  - destruct (decide (i < length toks)) as [Hi|Hi].
    + simpl. apply Nat.ltb_lt in Hi as Hi'. rewrite Hi'.
      destruct (loop_body_defined toks i w (proj1 Hw)) as (r & w1 & Hb & He).
      unfold mbind, M_bind. rewrite Hb. destruct r as [i'|].
      * apply loop_body_next in Hb.
        destruct (IH toks i' w1) as (ok & w' & Hs & He'); [lia|by eapply evolves_ready|].
        exists ok, w'. split; [done|]. by eapply evolves_trans.
      * by eexists _, _.
    + rewrite scan_done by lia. destruct Hw. by apply check_required_defined.
Qed.

Lemma processArguments_defined toks w :
  scan_ready w → ∃ ok w', processArguments toks w = Some (ok, w') ∧ evolves w w'.
Proof. intros Hw. apply scan_defined; [lia|done]. Qed.

(** ** Subcommand-style invocations *)

Section subcommand.
Variables (w0 : world) (c : ptr) (cmd : CliSubcommand.t).
Hypothesis Hwf : wf w0.
Hypothesis Hin : c ∈ CliParser.subcommands (parser w0).
Hypothesis Hcmd : deref (sub_heap w0) c = Some cmd.
(** Subcommand names are unique in the registry. *)
Hypothesis Hunique :
  ∀ c' cmd', c' ∈ CliParser.subcommands (parser w0) →
             deref (sub_heap w0) c' = Some cmd' →
             CliSubcommand.name cmd' = CliSubcommand.name cmd → c' = c.

Lemma subcommand_not_null : c ≠ nullptr.
Proof using Hcmd.
  unfold deref in Hcmd. by destruct (decide (c = nullptr)).
Qed.

Lemma subcommand_found :
  getSubcommand (CliSubcommand.name cmd) w0 = Some (c, w0).
Proof using Hwf Hin Hcmd Hunique.
  unfold getSubcommand.
  rewrite (find_named_unique CliSubcommand.name _ _ _ c cmd); try done.
  eapply Forall_impl; [exact (wf_subcommands _ Hwf)|].
  simpl. intros x (o & Ho & _). by exists o.
Qed.

Lemma subcommand_enters prog rest :
  enters (prog :: CliSubcommand.name cmd :: rest) w0 rest (in_subcommand c cmd w0).
Proof using Hwf Hin Hcmd Hunique.
  apply (enters_sub (prog :: CliSubcommand.name cmd :: rest) w0 c cmd).
  - simpl; lia.
  - exact subcommand_found.
  - exact subcommand_not_null.
  - exact Hcmd.
Qed.

Lemma subcommand_ready : scan_ready (in_subcommand c cmd w0).
Proof using Hwf Hin Hcmd.
  split; simpl.
  - pose proof (wf_subcommands _ Hwf) as Hs. rewrite Forall_forall in Hs.
    destruct (Hs c Hin) as (cmd' & Hc' & Hv).
    rewrite Hcmd in Hc'. inversion Hc'; subst cmd'. exact Hv.
  - exact (wf_result _ Hwf).
Qed.

Lemma subcommand_parse prog rest :
  ∃ ok w', parse (prog :: CliSubcommand.name cmd :: rest) w0 = Some (ok, w') ∧
           processArguments rest (in_subcommand c cmd w0) = Some (ok, w') ∧
           evolves (in_subcommand c cmd w0) w'.
Proof using Hwf Hin Hcmd Hunique.
  destruct (processArguments_defined rest _ subcommand_ready) as (ok & w' & Hp & He).
  exists ok, w'. by rewrite (enters_parse _ _ _ _ (subcommand_enters prog rest)).
Qed.
End subcommand.

Lemma demo_wf : wf demo.
Proof.
  split.
  - apply Forall_singleton. eexists. split; [reflexivity|].
    repeat constructor; by eexists.
  - repeat constructor; by eexists.
  - constructor.
Qed.

Lemma demo_convert_unique c' cmd' :
  c' ∈ CliParser.subcommands (parser demo) →
  deref (sub_heap demo) c' = Some cmd' →
  CliSubcommand.name cmd' = "convert" → c' = 7%N.
Proof. intros H _ _. by apply list_elem_of_singleton in H. Qed.

(** C1: if the first token is the name of the registered subcommand [c],
    [parse] returns, the result's subcommand is [c], the remaining tokens are
    processed by [processArguments] in a world whose argument vector is that
    of [c], every argument object the call appends to the result belongs to
    [c], and the outcome does not depend on the top-level arguments at all. *)
Theorem subcommand_scope prog rest w0 c cmd :
  wf w0 →
  c ∈ CliParser.subcommands (parser w0) →
  deref (sub_heap w0) c = Some cmd →
  (∀ c' cmd', c' ∈ CliParser.subcommands (parser w0) →
              deref (sub_heap w0) c' = Some cmd' →
              CliSubcommand.name cmd' = CliSubcommand.name cmd → c' = c) →
  ∃ ok w',
    parse (prog :: CliSubcommand.name cmd :: rest) w0 = Some (ok, w') ∧
    CliParserResult.subcommand (result w') = c ∧
    processArguments rest (in_subcommand c cmd w0) = Some (ok, w') ∧
    CliParser.args (parser (in_subcommand c cmd w0)) = CliSubcommand.args cmd ∧
    (∃ l, CliParserResult.args (result w') = CliParserResult.args (result w0) ++ l ∧
          Forall (λ a, a ∈ CliSubcommand.args cmd) l) ∧
    ∀ top,
      parse (prog :: CliSubcommand.name cmd :: rest)
            (with_parser (CliParser.mk (CliParser.subcommands (parser w0)) top) w0)
      = Some (ok, w').
Proof.
  intros Hwf Hin Hcmd Hu.
  destruct (subcommand_parse w0 c cmd Hwf Hin Hcmd Hu prog rest)
    as (ok & w' & Hp & Hpa & (_ & _ & _ & Hsub & l & Hl & Hscope)).
  exists ok, w'. repeat split; try done.
  - by exists l.
  - intros top.
    set (w0' := with_parser (CliParser.mk (CliParser.subcommands (parser w0)) top) w0).
    assert (He : enters (prog :: CliSubcommand.name cmd :: rest) w0' rest
                        (in_subcommand c cmd w0)).
    { apply (enters_sub (prog :: CliSubcommand.name cmd :: rest) w0' c cmd).
      - simpl; lia.
      - pose proof (subcommand_found w0 c cmd Hwf Hin Hcmd Hu) as Hf.
        unfold getSubcommand in *. simpl.
        destruct (find_named _ _ _ _) as [x|]; [|done]. by inversion Hf.
      - by eapply subcommand_not_null.
      - done. }
    by rewrite (enters_parse _ _ _ _ He).
Qed.

(** [pixl convert -to png] on the demo registry. *)
Lemma subcommand_scope_witness :
  ∃ ok w',
    parse ["pixl"; "convert"; "-to"; "png"] demo = Some (ok, w') ∧
    CliParserResult.subcommand (result w') = 7%N ∧
    processArguments ["-to"; "png"]
      (in_subcommand 7%N (CliSubcommand.mk "convert" [3%N; 4%N]) demo) = Some (ok, w') ∧
    CliParser.args (parser (in_subcommand 7%N (CliSubcommand.mk "convert" [3%N; 4%N]) demo))
      = [3%N; 4%N] ∧
    (∃ l, CliParserResult.args (result w') = CliParserResult.args (result demo) ++ l ∧
          Forall (λ a, a ∈ [3%N; 4%N]) l) ∧
    ∀ top,
      parse ["pixl"; "convert"; "-to"; "png"]
            (with_parser (CliParser.mk (CliParser.subcommands (parser demo)) top) demo)
      = Some (ok, w').
Proof.
  apply (subcommand_scope "pixl" ["-to"; "png"] demo 7%N
           (CliSubcommand.mk "convert" [3%N; 4%N])).
  - exact demo_wf.
  - simpl. apply list_elem_of_singleton. reflexivity.
  - reflexivity.
  - exact demo_convert_unique.
Defined.

(** The required top-level [-out] is not asked for once [convert] is chosen. *)
Example convert_skips_top_level_required :
  ∃ w', parse ["pixl"; "convert"; "-to"; "png"] demo = Some (true, w') ∧
        CliParserResult.errorMessage (result w') = "" ∧
        CliParserResult.args (result w') = [4%N].
Proof. eexists. split; [reflexivity|]. split; reflexivity. Qed.

(** Top-level flags are unknown inside a subcommand. *)
Example convert_hides_top_level_flags :
  parse ["pixl"; "convert"; "-verbose"] demo =
  Some (false, fail_with "Unkown argument verbose"
                 (in_subcommand 7%N (CliSubcommand.mk "convert" [3%N; 4%N]) demo)).
Proof. reflexivity. Qed.

(** C4, as the code has it: [processSubcommand] overwrites the parser's
    argument vector and nothing puts the old one back, so after a
    subcommand-style [parse] has returned the parser's argument vector is the
    subcommand's; the vector of subcommands is untouched. *)
Theorem subcommand_args_persist prog rest w0 c cmd :
  wf w0 →
  c ∈ CliParser.subcommands (parser w0) →
  deref (sub_heap w0) c = Some cmd →
  (∀ c' cmd', c' ∈ CliParser.subcommands (parser w0) →
              deref (sub_heap w0) c' = Some cmd' →
              CliSubcommand.name cmd' = CliSubcommand.name cmd → c' = c) →
  ∃ ok w',
    parse (prog :: CliSubcommand.name cmd :: rest) w0 = Some (ok, w') ∧
    CliParser.args (parser w') = CliSubcommand.args cmd ∧
    CliParser.subcommands (parser w') = CliParser.subcommands (parser w0).
Proof.
  intros Hwf Hin Hcmd Hu.
  destruct (subcommand_parse w0 c cmd Hwf Hin Hcmd Hu prog rest)
    as (ok & w' & Hp & _ & (Hpa & _)).
  exists ok, w'. rewrite Hpa. by repeat split.
Qed.

Lemma subcommand_args_persist_witness :
  ∃ ok w',
    parse ["pixl"; "convert"; "-to"; "png"] demo = Some (ok, w') ∧
    CliParser.args (parser w') = [3%N; 4%N] ∧
    CliParser.subcommands (parser w') = CliParser.subcommands (parser demo).
Proof.
  apply (subcommand_args_persist "pixl" ["-to"; "png"] demo 7%N
           (CliSubcommand.mk "convert" [3%N; 4%N])).
  - exact demo_wf.
  - simpl. apply list_elem_of_singleton. reflexivity.
  - reflexivity.
  - exact demo_convert_unique.
Defined.

(** C4, as stated, fails on [pixl convert -to png]: the top-level argument
    vector was [[1; 2]] before the call and is [[3; 4]] after it. *)
Lemma top_level_args_not_restored :
  ∃ w', parse ["pixl"; "convert"; "-to"; "png"] demo = Some (true, w') ∧
        CliParser.args (parser demo) = [1%N; 2%N] ∧
        CliParser.args (parser w') = [3%N; 4%N] ∧
        CliParser.args (parser w') ≠ CliParser.args (parser demo).
Proof. eexists. split; [reflexivity|]. repeat split. discriminate. Qed.

(** ** Parsing does not read [param] fields *)

Lemma params_merged_idle w v : params_merged w v w v.
Proof. intros a. by right. Qed.

Lemma params_merged_trans w v w1 v1 w2 v2 :
  params_merged w v w1 v1 → params_merged w1 v1 w2 v2 → params_merged w v w2 v2.
Proof.
  intros H1 H2 a. destruct (H2 a) as [He|[Hw Hv]]; [by left|].
  rewrite Hw, Hv. apply H1.
Qed.

Lemma same_but_params_fail_with msg w v :
  same_but_params w v → same_but_params (fail_with msg w) (fail_with msg v).
Proof.
  intros (Hp & Hs & Hr & Hf). repeat split; try done.
  unfold fail_with. simpl. by rewrite Hr.
Qed.

Lemma set_param_same value a a' :
  CliArg.set_param "" a' = CliArg.set_param "" a →
  CliArg.set_param value a' = CliArg.set_param value a.
Proof. destruct a, a'. unfold CliArg.set_param. simpl. by intros [= -> -> -> ->]. Qed.

Lemma deref_lookup {A : Type} (h : gmap N A) a o : deref h a = Some o → h !! a = Some o.
Proof. unfold deref. by destruct (decide (a = nullptr)). Qed.

Lemma processFlag_sim name w v ok w1 :
  same_but_params w v → processFlag name w = Some (ok, w1) →
  ∃ v1, processFlag name v = Some (ok, v1) ∧ same_but_params w1 v1 ∧
        params_merged w v w1 v1.
Proof.
  intros Hs. pose proof Hs as (Hp & Hsub & Hr & Hf).
  rewrite !processFlag_unfold, <- Hp, <- (frame_find_named _ _ _ _ Hf).
  destruct (find_named _ _ _ _) as [arg|]; [|done].
  destruct (N.eqb arg nullptr).
  { intros [= <- <-]. eexists. split; [done|].
    split; [by apply same_but_params_fail_with|]. intros a. by right. }
  destruct (deref (arg_heap w) arg) as [a|] eqn:Ha; [|done].
  destruct (frame_lookup _ _ _ _ Hf Ha) as (a' & -> & Hsame).
  apply set_param_fields in Hsame as (_ & -> & _).
  destruct (CliArg.hasParam a); intros [= <- <-]; (eexists; split; [done|]).
  - split; [by apply same_but_params_fail_with|]. intros x. by right.
  - split; [|intros x; by right].
    repeat split; try done. unfold pushed. simpl. by rewrite Hr.
Qed.

Lemma processArgument_sim name value w v ok w1 :
  same_but_params w v → processArgument name value w = Some (ok, w1) →
  ∃ v1, processArgument name value v = Some (ok, v1) ∧ same_but_params w1 v1 ∧
        params_merged w v w1 v1.
Proof.
  intros Hs. pose proof Hs as (Hp & Hsub & Hr & Hf).
  rewrite !processArgument_unfold, <- Hp, <- (frame_find_named _ _ _ _ Hf).
  destruct (find_named _ _ _ _) as [arg|]; [|done].
  destruct (N.eqb arg nullptr).
  { intros [= <- <-]. eexists. split; [done|].
    split; [by apply same_but_params_fail_with|]. intros a. by right. }
  destruct (deref (arg_heap w) arg) as [a|] eqn:Ha; [|done].
  destruct (frame_lookup _ _ _ _ Hf Ha) as (a' & Ha' & Hsame).
  rewrite Ha'.
  pose proof (set_param_fields _ _ Hsame) as (_ & -> & _).
  destruct (CliArg.hasParam a); intros [= <- <-]; (eexists; split; [done|]).
  - split.
    + repeat split; try done.
      * unfold pushed. simpl. by rewrite Hr.
      * change (frame (arg_heap (stored arg value a w)) =
                frame (arg_heap (stored arg value a' v))).
        by rewrite !frame_stored.
    + intros x. simpl. destruct (decide (x = arg)) as [->|Hne].
      * left. rewrite !lookup_insert_eq. f_equal. symmetry.
        by apply set_param_same.
      * right. by rewrite !lookup_insert_ne.
  - split; [by apply same_but_params_fail_with|]. intros x. by right.
Qed.

Lemma loop_body_sim toks i w v r w1 :
  same_but_params w v → loop_body toks i w = Some (r, w1) →
  ∃ v1, loop_body toks i v = Some (r, v1) ∧ same_but_params w1 v1 ∧
        params_merged w v w1 v1.
Proof.
  intros Hs. unfold loop_body. destruct (_ && _ && _).
  - unfold mbind, M_bind, mret, M_ret.
    destruct (processArgument _ _ w) as [[ok w2]|] eqn:Hp; [|done].
    destruct (processArgument_sim _ _ _ _ _ _ Hs Hp) as (v2 & -> & Hs2 & Hm).
    intros [= <- <-]. by exists v2.
  - destruct (starts_dash (tok toks i)).
    + unfold mbind, M_bind, mret, M_ret.
      destruct (processFlag _ w) as [[ok w2]|] eqn:Hp; [|done].
      destruct (processFlag_sim _ _ _ _ _ Hs Hp) as (v2 & -> & Hs2 & Hm).
      intros [= <- <-]. by exists v2.
    + unfold_monad. intros [= <- <-]. eexists. split; [done|].
      split; [by apply same_but_params_fail_with|]. intros x. by right.
Qed.

Lemma check_required_sim l w v ok w1 :
  same_but_params w v → check_required l w = Some (ok, w1) →
  ∃ v1, check_required l v = Some (ok, v1) ∧ same_but_params w1 v1 ∧
        params_merged w v w1 v1.
Proof.
  intros Hs. pose proof Hs as (Hp & Hsub & Hr & Hf).
  induction l as [|arg l IH]; simpl.
  - unfold_monad. intros [= <- <-]. exists v. split; [done|]. split; [done|].
    apply params_merged_idle.
  - unfold_monad.
    destruct (deref (arg_heap w) arg) as [a|] eqn:Ha; [|done].
    destruct (frame_lookup _ _ _ _ Hf Ha) as (a' & -> & Hsame).
    apply set_param_fields in Hsame as (-> & _ & ->).
    destruct (CliArg.required a); simpl; [|done].
    rewrite <- Hr, <- (frame_find_named _ _ _ _ Hf).
    destruct (find_named _ _ _ _) as [found|]; [|done].
    destruct (N.eqb found nullptr); [|done].
    intros [= <- <-]. eexists. split; [done|].
    split; [by apply same_but_params_fail_with|]. intros x. by right.
Qed.

Lemma scan_sim fuel : ∀ toks i w v ok w1,
  same_but_params w v → scan fuel toks i w = Some (ok, w1) →
  ∃ v1, scan fuel toks i v = Some (ok, v1) ∧ same_but_params w1 v1 ∧
        params_merged w v w1 v1.
Proof.
  induction fuel as [|fuel IH]; intros toks i w v ok w1 Hs; simpl;
    (destruct (i <? length toks);
      [|destruct Hs as (Hp & ?); rewrite <- Hp;
        by apply check_required_sim]); [done|].
  unfold mbind, M_bind.
  destruct (loop_body toks i w) as [[r w2]|] eqn:Hb; [|done].
  destruct (loop_body_sim _ _ _ _ _ _ Hs Hb) as (v2 & -> & Hs2 & Hm).
  destruct r as [i'|].
  - intros Hsc. destruct (IH _ _ _ _ _ _ Hs2 Hsc) as (v1 & Hv & Hs1 & Hm1).
    exists v1. split; [done|]. split; [done|]. by eapply params_merged_trans.
  - unfold mret, M_ret. intros [= <- <-]. by exists v2.
Qed.

(** Running the scan again from the heap it left gives the same world. *)
Lemma processArguments_again toks w ok w1 u :
  processArguments toks w = Some (ok, w1) →
  same_but_params w u → arg_heap u = arg_heap w1 →
  processArguments toks u = Some (ok, w1).
Proof.
  intros Hp Hs Hu.
  destruct (scan_sim _ _ _ _ _ _ _ Hs Hp) as (v1 & Hv & (Hp1 & Hs1 & Hr1 & Hf1) & Hm).
  unfold processArguments. rewrite Hv. do 2 f_equal.
  destruct w1 as [h1 s1 p1 r1], v1 as [hv sv pv rv]. simpl in *. subst.
  f_equal. apply map_eq. intros a. destruct (Hm a) as [He|[H1 H2]]; simpl in *.
  - done.
  - by rewrite H2.
Qed.

Lemma getSubcommand_defined name w :
  wf w → ∃ c, getSubcommand name w = Some (c, w) ∧
              (c ≠ nullptr → c ∈ CliParser.subcommands (parser w) ∧
                             ∃ cmd, deref (sub_heap w) c = Some cmd).
Proof.
  intros Hwf. unfold getSubcommand.
  destruct (find_named_defined CliSubcommand.name (sub_heap w)
              (CliParser.subcommands (parser w)) name) as [c Hc].
  { eapply Forall_impl; [exact (wf_subcommands _ Hwf)|].
    simpl. intros x (o & Ho & _). by exists o. }
  rewrite Hc. exists c. split; [done|]. intros Hn.
  destruct (find_named_found _ _ _ _ _ Hc Hn) as [Hin (cmd & Hcmd & _)].
  split; [done|]. by exists cmd.
Qed.

(** [parse] returns on every well-formed world. *)
Lemma parse_defined argv w0 :
  wf w0 → ∃ ok w1, parse argv w0 = Some (ok, w1).
Proof.
  intros Hwf. destruct (decide (length argv < 2)) as [Hl|Hl].
  - unfold parse. apply Nat.ltb_lt in Hl. rewrite Hl. unfold_monad. by eexists _, _.
  - destruct (getSubcommand_defined (tok argv 1) w0 Hwf) as (c & Hc & Hfound).
    destruct (decide (c = nullptr)) as [->|Hn].
    + destruct (processArguments_defined (drop 1 argv) w0) as (ok & w1 & Hp & _).
      { split; [exact (wf_args _ Hwf)|exact (wf_result _ Hwf)]. }
      exists ok, w1. rewrite <- Hp. apply enters_parse. apply enters_flat; [lia|done].
    + destruct (Hfound Hn) as [Hin [cmd Hcmd]].
      destruct (processArguments_defined (drop 2 argv) _
                  (subcommand_ready w0 c cmd Hwf Hin Hcmd)) as (ok & w1 & Hp & _).
      exists ok, w1. rewrite <- Hp. apply enters_parse.
      apply (enters_sub argv w0 c cmd); [lia|done..].
Qed.

(** C5: on a well-formed world [parse] returns, and a second call with the
    same tokens, on the registry as the first call left it and with a result
    object in the state the first one started from, returns the same value
    and leaves the same world: the same subcommand, the same matched
    argument objects in the same order, the same message and the same
    recorded values. *)
Theorem parse_twice argv w0 :
  wf w0 →
  ∃ ok w1, parse argv w0 = Some (ok, w1) ∧
           parse argv (with_result (result w0) w1) = Some (ok, w1).
Proof.
  intros Hwf. destruct (decide (length argv < 2)) as [Hl|Hl].
  - unfold parse. apply Nat.ltb_lt in Hl. rewrite Hl. unfold_monad.
    eexists _, _. split; [done|]. by destruct w0.
  - destruct (getSubcommand_defined (tok argv 1) w0 Hwf) as (c & Hc & Hfound).
    destruct (decide (c = nullptr)) as [->|Hn].
    + destruct (processArguments_defined (drop 1 argv) w0)
        as (ok & w1 & Hp & (Hpa & Hsu & Hfr & _)).
      { split; [exact (wf_args _ Hwf)|exact (wf_result _ Hwf)]. }
      exists ok, w1. split.
      * rewrite <- Hp. apply enters_parse. apply enters_flat; [lia|done].
      * set (u := with_result (result w0) w1).
        assert (He : enters argv u (drop 1 argv) u).
        { apply enters_flat; [lia|]. unfold getSubcommand in *. unfold u. simpl.
          rewrite Hpa, Hsu. destruct (find_named _ _ _ _) as [x|]; [|done].
          by inversion Hc. }
        rewrite (enters_parse _ _ _ _ He).
        apply (processArguments_again _ w0); [done| |done].
        by repeat split.
    + destruct (Hfound Hn) as [Hin [cmd Hcmd]].
      destruct (processArguments_defined (drop 2 argv) _
                  (subcommand_ready w0 c cmd Hwf Hin Hcmd))
        as (ok & w1 & Hp & (Hpa & Hsu & Hfr & _)).
      simpl in Hpa, Hsu, Hfr.
      exists ok, w1. split.
      * rewrite <- Hp. apply enters_parse.
        apply (enters_sub argv w0 c cmd); [lia|done..].
      * set (u := with_result (result w0) w1).
        assert (He : enters argv u (drop 2 argv) (in_subcommand c cmd u)).
        { apply (enters_sub argv u c cmd); [lia| |done|].
          - unfold getSubcommand in *. unfold u. simpl.
            rewrite Hpa, Hsu. simpl. destruct (find_named _ _ _ _) as [x|]; [|done].
            by inversion Hc.
          - unfold u. simpl. by rewrite Hsu. }
        rewrite (enters_parse _ _ _ _ He).
        apply (processArguments_again _ (in_subcommand c cmd w0)); [done| |done].
        unfold u, in_subcommand. simpl. rewrite Hpa. simpl. by repeat split.
Qed.

(** [pixl convert -quality 5 -quality 9 -to png] twice on the demo
    registry. *)
Lemma parse_twice_witness :
  ∃ ok w1,
    parse ["pixl"; "convert"; "-quality"; "5"; "-quality"; "9"; "-to"; "png"] demo
      = Some (ok, w1) ∧
    parse ["pixl"; "convert"; "-quality"; "5"; "-quality"; "9"; "-to"; "png"]
          (with_result (result demo) w1) = Some (ok, w1).
Proof.
  apply (parse_twice ["pixl"; "convert"; "-quality"; "5"; "-quality"; "9"; "-to"; "png"] demo).
  exact demo_wf.
Defined.

(** ** A successful flat invocation *)

Lemma check_required_ok l w :
  Forall (λ b, ∃ ob, deref (arg_heap w) b = Some ob ∧
                     (CliArg.required ob = true →
                      ∃ r, find_named CliArg.name (arg_heap w)
                             (CliParserResult.args (result w)) (CliArg.name ob) = Some r ∧
                           r ≠ nullptr)) l →
  check_required l w = Some (true, w).
Proof.
  induction 1 as [|b l (ob & Hb & Hreq) _ IH]; simpl; [done|].
  unfold_monad. rewrite Hb. destruct (CliArg.required ob); simpl; [|done].
  destruct (Hreq eq_refl) as (r & -> & Hr).
  apply N.eqb_neq in Hr. by rewrite Hr.
Qed.

(** C2: with an argument object named ["out"] that takes a parameter and is
    required, [parse] of [-out file.png] returns [true] and leaves the error
    message empty; the object is the one entry of the result's vector, the
    result's lookup of ["out"] returns it, and its [param] is ["file.png"].
    The registry has no subcommand called ["-out"] and no other required
    argument, and the result object is fresh. *)
Theorem out_with_value prog w0 arg a :
  getSubcommand "-out" w0 = Some (nullptr, w0) →
  result w0 = CliParserResult.new →
  getArgument "out" w0 = Some (arg, w0) →
  deref (arg_heap w0) arg = Some a →
  CliArg.hasParam a = true →
  CliArg.required a = true →
  Forall (λ b, b = arg ∨ ∃ ob, deref (arg_heap w0) b = Some ob ∧ CliArg.required ob = false)
         (CliParser.args (parser w0)) →
  ∃ w', parse [prog; "-out"; "file.png"] w0 = Some (true, w') ∧
        CliParserResult.errorMessage (result w') = "" ∧
        CliParserResult.args (result w') = [arg] ∧
        Result_getArgument "out" w' = Some (arg, w') ∧
        ∃ a', deref (arg_heap w') arg = Some a' ∧ CliArg.param a' = "file.png".
Proof.
  intros Hsub Hres Hget Ha Hp Hr Hothers.
  assert (Hn : arg ≠ nullptr).
  { intros ->. unfold deref in Ha. by rewrite decide_True in Ha. }
  assert (Hname : CliArg.name a = "out").
  { rewrite getArgument_unfold in Hget.
    destruct (find_named _ _ _ _) as [x|] eqn:Hf; [|done]. inversion Hget; subst x.
    destruct (find_named_found _ _ _ _ _ Hf Hn) as [_ (o & Ho & Hno)]. congruence. }
  set (w' := pushed arg (stored arg "file.png" a w0)).
  assert (Hstep : processArgument "out" "file.png" w0 = Some (true, w')).
  { rewrite processArgument_unfold. rewrite getArgument_unfold in Hget.
    destruct (find_named _ _ _ _) as [x|]; [|done]. inversion Hget; subst x.
    apply N.eqb_neq in Hn. by rewrite Hn, Ha, Hp. }
  assert (He : enters [prog; "-out"; "file.png"] w0 ["-out"; "file.png"] w0).
  { apply (enters_flat [prog; "-out"; "file.png"] w0); [simpl; lia|done]. }
  assert (Hs : scan_at ["-out"; "file.png"] w0 2 [(arg, Some "file.png")] w').
  { apply (scan_at_value ["-out"; "file.png"] w0 0 [] w0 arg w');
      [apply scan_at_start|simpl; lia|done..]. }
  assert (Ha' : deref (arg_heap w') arg = Some (CliArg.set_param "file.png" a)).
  { unfold deref. rewrite decide_False by done. apply lookup_insert_eq. }
  assert (Hfind : find_named CliArg.name (arg_heap w') (CliParserResult.args (result w')) "out"
                  = Some arg).
  { unfold w'. simpl. rewrite Hres. simpl.
    change (<[arg:=CliArg.set_param "file.png" a]> (arg_heap w0)) with (arg_heap w').
    rewrite Ha'. simpl. by rewrite Hname. }
  exists w'. split; [|split; [|split; [|split]]].
  - rewrite (parse_at _ _ _ _ _ _ _ He Hs), scan_done by (simpl; lia).
    apply check_required_ok. simpl.
    eapply Forall_impl; [exact Hothers|]. simpl. intros b Hb.
    destruct (decide (b = arg)) as [->|Hne].
    + exists (CliArg.set_param "file.png" a). split; [done|]. intros _.
      exists arg. simpl. rewrite Hname. by split.
    + destruct Hb as [->|(ob & Hob & Hrb)]; [done|].
      exists ob. split; [|congruence].
      unfold deref in *. destruct (decide (b = nullptr)); [done|].
      by rewrite lookup_insert_ne.
  - simpl. by rewrite Hres.
  - simpl. by rewrite Hres.
  - unfold Result_getArgument. by rewrite Hfind.
  - by exists (CliArg.set_param "file.png" a).
Qed.

(** The registry with the one argument [-out <file>], required. *)
Lemma out_with_value_witness :
  let a := CliArg.new "out" "output file" true true in
  let w0 := World {[ 1%N := a ]} ∅ (CliParser.addArg 1%N CliParser.new) CliParserResult.new in
  ∃ w', parse ["pixl"; "-out"; "file.png"] w0 = Some (true, w') ∧
        CliParserResult.errorMessage (result w') = "" ∧
        CliParserResult.args (result w') = [1%N] ∧
        Result_getArgument "out" w' = Some (1%N, w') ∧
        ∃ a', deref (arg_heap w') 1%N = Some a' ∧ CliArg.param a' = "file.png".
Proof.
  intros a w0.
  apply (out_with_value "pixl" w0 1%N a).
  - reflexivity.
  - reflexivity.
  - reflexivity.
  - reflexivity.
  - reflexivity.
  - reflexivity.
  - apply Forall_singleton. left. reflexivity.
Defined.

(** ** Every run of the scan is described by [scan_at] *)

Lemma loop_body_continue toks w0 i ms w i' w1 :
  scan_at toks w0 i ms w → i < length toks →
  loop_body toks i w = Some (Some i', w1) →
  ∃ ms', scan_at toks w0 i' ms' w1.
Proof.
  intros Hs Hi. unfold loop_body.
  destruct (_ && _ && _) eqn:Hc.
  - apply andb_true_iff in Hc as [Hc H3]. apply andb_true_iff in Hc as [H1 H2].
    apply Nat.leb_le in H1. apply negb_true_iff in H3.
    unfold mbind, M_bind, mret, M_ret.
    destruct (processArgument _ _ w) as [[[] w2]|] eqn:Hp; [|done..].
    intros [= <- <-].
    destruct (processArgument_true _ _ _ _ Hp) as (arg & _ & Hg & _).
    eexists. by eapply scan_at_value.
  - destruct (starts_dash (tok toks i)) eqn:H2.
    + unfold mbind, M_bind, mret, M_ret.
      destruct (processFlag _ w) as [[[] w2]|] eqn:Hp; [|done..].
      intros [= <- <-].
      destruct (processFlag_true _ _ _ Hp) as (arg & _ & Hg & _).
      eexists. eapply scan_at_flag; try done.
      intros Hle. apply Nat.leb_le in Hle. rewrite Hle in Hc. simpl in Hc.
      by apply negb_false_iff in Hc.
    + unfold_monad. done.
Qed.

Lemma scan_at_ready toks w0 i ms w : scan_ready w0 → scan_at toks w0 i ms w → scan_ready w.
Proof.
  intros Hw Hs.
  destruct (scan_at_inv _ _ _ _ _ Hs) as (Hp & Hsu & Hf & _ & Hsc & Hra & Hin).
  apply (evolves_ready w0); [done|]. repeat split; try done.
  exists ms.*1. split; [done|]. eapply Forall_impl; [exact Hin|]. by intros a [? _].
Qed.

(** From a world in which the scan can follow its pointers, the scan either
    consumes all tokens or reaches a token at which an iteration returns
    [false]. *)
Lemma scan_at_complete toks w0 :
  scan_ready w0 →
  ∃ i ms w, scan_at toks w0 i ms w ∧
            (i = length toks ∨ (i < length toks ∧ ∃ w', loop_body toks i w = Some (None, w'))).
Proof.
  intros Hw.
  assert (Hgen : ∀ n i ms w, length toks - i ≤ n → scan_at toks w0 i ms w →
            ∃ j ms' w', scan_at toks w0 j ms' w' ∧
              (j = length toks ∨
               (j < length toks ∧ ∃ w'', loop_body toks j w' = Some (None, w'')))).
  { induction n as [|n IH]; intros i ms w Hn Hs.
    - exists i, ms, w. split; [done|]. left.
      apply scan_at_bound in Hs. lia.
    - destruct (decide (i < length toks)) as [Hi|Hi].
      + pose proof (scan_at_ready _ _ _ _ _ Hw Hs) as [Hv _].
        destruct (loop_body_defined toks i w Hv) as ([i'|] & w1 & Hb & _).
        * destruct (loop_body_continue _ _ _ _ _ _ _ Hs Hi Hb) as [ms' Hs'].
          apply loop_body_next in Hb. apply (IH i' ms' w1); [lia|done].
        * exists i, ms, w. split; [done|]. right. split; [done|]. by exists w1.
      + exists i, ms, w. split; [done|]. left.
        apply scan_at_bound in Hs. lia. }
  apply (Hgen (length toks) 0 [] w0); [lia|apply scan_at_start].
Qed.

(** * Further properties of the parser *)

(** ** The shape of every run *)

Lemma enters_defined argv w0 :
  wf w0 → 2 ≤ length argv →
  ∃ toks w1, enters argv w0 toks w1 ∧ scan_ready w1.
Proof.
  intros Hwf Hl.
  destruct (getSubcommand_defined (tok argv 1) w0 Hwf) as (c & Hc & Hfound).
  destruct (decide (c = nullptr)) as [->|Hn].
  - exists (drop 1 argv), w0. split; [by apply enters_flat|].
    split; [exact (wf_args _ Hwf)|exact (wf_result _ Hwf)].
  - destruct (Hfound Hn) as [Hin [cmd Hcmd]].
    exists (drop 2 argv), (in_subcommand c cmd w0). split.
    + by apply (enters_sub argv w0 c cmd).
    + by apply subcommand_ready.
Qed.

Lemma enters_frame argv w0 toks w1 :
  enters argv w0 toks w1 →
  arg_heap w1 = arg_heap w0 ∧ sub_heap w1 = sub_heap w0 ∧
  CliParser.subcommands (parser w1) = CliParser.subcommands (parser w0) ∧
  CliParserResult.errorMessage (result w1) = CliParserResult.errorMessage (result w0) ∧
  CliParserResult.args (result w1) = CliParserResult.args (result w0).
Proof. by intros [|]. Qed.

Lemma enters_suffix argv w0 toks w1 v :
  enters argv w0 toks w1 → v ∈ toks → v ∈ argv.
Proof.
  intros [|] Hv; apply list_elem_of_lookup in Hv as [k Hk];
    rewrite lookup_drop in Hk; by eapply list_elem_of_lookup_2.
Qed.

(** How the check of the required arguments can end. *)
Lemma check_required_cases l w ok w' :
  check_required l w = Some (ok, w') →
  (ok = true ∧ w' = w ∧
   ∀ b ob, b ∈ l → deref (arg_heap w) b = Some ob → CliArg.required ob = true →
           ∃ r, Result_getArgument (CliArg.name ob) w = Some (r, w) ∧ r ≠ nullptr) ∨
  (ok = false ∧
   ∃ b ob, b ∈ l ∧ deref (arg_heap w) b = Some ob ∧ CliArg.required ob = true ∧
           Result_getArgument (CliArg.name ob) w = Some (nullptr, w) ∧
           w' = fail_with ("Missing required argument: " +:+ CliArg.name ob) w).
Proof.
  induction l as [|arg l IH]; simpl.
  - unfold_monad. intros [= <- <-]. left. repeat split.
    intros b ob Hb. by apply elem_of_nil in Hb.
  - unfold_monad.
    destruct (deref (arg_heap w) arg) as [a|] eqn:Ha; [|done].
    destruct (CliArg.required a) eqn:Hr; simpl.
    + destruct (find_named _ _ _ _) as [r|] eqn:Hf; [|done].
      destruct (N.eqb r nullptr) eqn:Hz.
      * apply N.eqb_eq in Hz. subst r. intros [= <- <-]. right. split; [done|].
        exists arg, a. rewrite Hf. repeat split; try done. by left.
      * intros Hc. destruct (IH Hc) as [(-> & -> & Hall)|(-> & b & ob & Hb & Hrest)].
        -- left. repeat split. intros b ob Hb Hob Hrb.
           apply elem_of_cons in Hb as [->|Hb]; [|by eapply Hall].
           rewrite Ha in Hob. inversion Hob; subst ob.
           exists r. rewrite Hf. split; [done|]. by apply N.eqb_neq.
        -- right. split; [done|]. exists b, ob. split; [by right|done].
    + intros Hc. destruct (IH Hc) as [(-> & -> & Hall)|(-> & b & ob & Hb & Hrest)].
      * left. repeat split. intros b ob Hb Hob Hrb.
        apply elem_of_cons in Hb as [->|Hb]; [|by eapply Hall]. congruence.
      * right. split; [done|]. exists b, ob. split; [by right|done].
Qed.

(** The message of an iteration that returns [false] is not empty. *)
Lemma loop_body_false_message toks i w w' :
  loop_body toks i w = Some (None, w') →
  ∃ msg, msg ≠ "" ∧ w' = fail_with msg w.
Proof.
  assert (Hmsg : ∀ msg, msg ≠ "" → ∃ m, m ≠ "" ∧ fail_with msg w = fail_with m w)
    by (intros msg ?; by exists msg).
  unfold loop_body. destruct (_ && _ && _).
  - unfold mbind, M_bind, mret, M_ret. rewrite processArgument_unfold.
    destruct (find_named _ _ _ _) as [arg|]; [|done].
    destruct (N.eqb arg nullptr); [intros [= <-]; by apply Hmsg|].
    destruct (deref _ _) as [a|]; [|done].
    destruct (CliArg.hasParam a); [done|]. intros [= <-]; by apply Hmsg.
  - destruct (starts_dash (tok toks i)).
    + unfold mbind, M_bind, mret, M_ret. rewrite processFlag_unfold.
      destruct (find_named _ _ _ _) as [arg|]; [|done].
      destruct (N.eqb arg nullptr); [intros [= <-]; by apply Hmsg|].
      destruct (deref _ _) as [a|]; [|done].
      destruct (CliArg.hasParam a); [|done]. intros [= <-]; by apply Hmsg.
    + unfold_monad. intros [= <-]. by apply Hmsg.
Qed.

(** Every run of [parse] on at least one token: the scan is entered, reaches
    a point [i], and either all tokens are consumed and the check of the
    required arguments decides, or the iteration at [i] returns [false]. *)
Lemma parse_outcome argv w0 :
  wf w0 → 2 ≤ length argv →
  ∃ toks w1 i ms w ok w',
    enters argv w0 toks w1 ∧ scan_at toks w1 i ms w ∧
    parse argv w0 = Some (ok, w') ∧
    ((i = length toks ∧ check_required (CliParser.args (parser w)) w = Some (ok, w')) ∨
     (i < length toks ∧ ok = false ∧ loop_body toks i w = Some (None, w'))).
Proof.
  intros Hwf Hl.
  destruct (enters_defined argv w0 Hwf Hl) as (toks & w1 & He & Hr).
  destruct (scan_at_complete toks w1 Hr) as (i & ms & w & Hs & [->|[Hi [w' Hb]]]).
  - pose proof (scan_at_ready _ _ _ _ _ Hr Hs) as [Hv Hvr].
    destruct (check_required_defined _ w Hv Hvr) as (ok & w' & Hc & _).
    exists toks, w1, (length toks), ms, w, ok, w'. repeat split; try done.
    + by rewrite (parse_at _ _ _ _ _ _ _ He Hs), scan_done.
    + by left.
  - exists toks, w1, i, ms, w, false, w'. repeat split; try done.
    + rewrite (parse_at _ _ _ _ _ _ _ He Hs). by apply scan_fail.
    + by right.
Qed.

Lemma parse_outcome_world argv w0 :
  wf w0 → 2 ≤ length argv →
  ∃ toks w1 i ms w ok w',
    enters argv w0 toks w1 ∧ scan_at toks w1 i ms w ∧
    parse argv w0 = Some (ok, w') ∧
    arg_heap w' = arg_heap w ∧ sub_heap w' = sub_heap w ∧ parser w' = parser w ∧
    CliParserResult.args (result w') = CliParserResult.args (result w) ∧
    CliParserResult.subcommand (result w') = CliParserResult.subcommand (result w) ∧
    (if ok then w' = w ∧ i = length toks
     else CliParserResult.errorMessage (result w') ≠ "").
Proof.
  intros Hwf Hl.
  destruct (parse_outcome argv w0 Hwf Hl)
    as (toks & w1 & i & ms & w & ok & w' & He & Hs & Hp & Hcase).
  exists toks, w1, i, ms, w, ok, w'. split; [done|]. split; [done|]. split; [done|].
  destruct Hcase as [[-> Hc]|(Hi & -> & Hb)].
  - apply check_required_cases in Hc
      as [(-> & -> & _)|(-> & b & ob & _ & _ & _ & _ & ->)]; by repeat split.
  - apply loop_body_false_message in Hb as (msg & Hmsg & ->). by repeat split.
Qed.

(** ** Empty command lines *)

Lemma parse_short argv w :
  length argv < 2 → parse argv w = Some (false, fail_with "No args" w).
Proof.
  intros Hl. unfold parse. apply Nat.ltb_lt in Hl. by rewrite Hl.
Qed.

(** X1: with no token behind the program name (or no program name at all)
    [parse] returns [false] with "No args" and follows no pointer: the
    registry may hold anything. *)
Theorem parse_no_args argv w :
  length argv < 2 →
  parse argv w = Some (false, fail_with "No args" w).
Proof. exact (parse_short argv w). Qed.

Lemma parse_no_args_witness :
  parse ["pixl"] (World ∅ ∅ (CliParser.mk [0%N; 5%N] [0%N]) CliParserResult.new) =
  Some (false, fail_with "No args"
                 (World ∅ ∅ (CliParser.mk [0%N; 5%N] [0%N]) CliParserResult.new)).
Proof. apply (parse_no_args ["pixl"]). simpl; lia. Defined.

(** ** The return value and the error message *)

(** X2: [parse] returns [true] without touching the error message, and
    returns [false] only with a message that is not empty. *)
Theorem error_message_iff_failure argv w0 :
  wf w0 →
  ∃ ok w', parse argv w0 = Some (ok, w') ∧
           if ok then CliParserResult.errorMessage (result w')
                      = CliParserResult.errorMessage (result w0)
           else CliParserResult.errorMessage (result w') ≠ "".
Proof.
  intros Hwf. destruct (decide (length argv < 2)) as [Hl|Hl].
  - rewrite parse_short by done. by eexists _, _.
  - destruct (parse_outcome_world argv w0 Hwf)
      as (toks & w1 & i & ms & w & ok & w' & He & Hs & Hp & _ & _ & _ & _ & _ & Hok); [lia|].
    exists ok, w'. split; [done|]. destruct ok; [|done].
    destruct Hok as [-> _].
    destruct (scan_at_inv _ _ _ _ _ Hs) as (_ & _ & _ & -> & _).
    by destruct (enters_frame _ _ _ _ He) as (_ & _ & _ & -> & _).
Qed.

Lemma error_message_iff_failure_witness :
  ∃ ok w', parse ["pixl"; "-verbose"; "-out"; "x"] demo = Some (ok, w') ∧
           if ok then CliParserResult.errorMessage (result w')
                      = CliParserResult.errorMessage (result demo)
           else CliParserResult.errorMessage (result w') ≠ "".
Proof. apply (error_message_iff_failure ["pixl"; "-verbose"; "-out"; "x"] demo demo_wf). Defined.

(** ** What [parse] leaves alone *)

Lemma tok_elem_of toks k : k < length toks → tok toks k ∈ toks.
Proof. intros Hk. apply list_elem_of_In. by apply nth_In. Qed.

Lemma scan_at_params toks w0 i ms w :
  scan_at toks w0 i ms w →
  ∀ a, (a ∉ ms.*1 → arg_heap w !! a = arg_heap w0 !! a) ∧
       (∀ o', arg_heap w !! a = Some o' →
              arg_heap w0 !! a = Some o' ∨
              (CliArg.hasParam o' = true ∧ starts_dash (CliArg.param o') = false ∧
               CliArg.param o' ∈ toks)).
Proof.
  induction 1 as [|i ms w b w' _ IH Hi _ Hv Hg Hp|i ms w b w' _ IH _ _ _ Hg Hp]; intros a.
  - split; [done|]. intros o' Ho. by left.
  - apply processArgument_true in Hp as (arg & o & Hg' & Hn & _ & Ho & _ & Hhp & ->).
    rewrite Hg in Hg'. inversion Hg'; subst arg.
    destruct (IH a) as [IH1 IH2]. simpl. split.
    + rewrite fmap_app, not_elem_of_app. simpl. intros [Hms Hb].
      rewrite lookup_insert_ne; [by apply IH1|].
      intros ->. apply Hb. by apply list_elem_of_singleton.
    + intros o'. destruct (decide (a = b)) as [->|Hne].
      * rewrite lookup_insert_eq. intros [= <-]. right. simpl.
        split; [done|]. split; [done|]. apply tok_elem_of. lia.
      * rewrite lookup_insert_ne by done. apply IH2.
  - apply processFlag_true in Hp as (arg & o & _ & _ & _ & _ & _ & _ & ->).
    destruct (IH a) as [IH1 IH2]. simpl. split; [|done].
    rewrite fmap_app, not_elem_of_app. intros [Hms _]. by apply IH1.
Qed.

(** X3: [parse] never changes a subcommand object, the vector of
    subcommands, or any field of an argument object but [param]; it creates
    and destroys no object; it only appends to the result's vector, and it
    writes [param] of no object that it did not append. *)
Theorem parse_frame argv w0 :
  wf w0 →
  ∃ ok w' l,
    parse argv w0 = Some (ok, w') ∧
    sub_heap w' = sub_heap w0 ∧
    CliParser.subcommands (parser w') = CliParser.subcommands (parser w0) ∧
    frame (arg_heap w') = frame (arg_heap w0) ∧
    CliParserResult.args (result w') = CliParserResult.args (result w0) ++ l ∧
    ∀ a, a ∉ l → arg_heap w' !! a = arg_heap w0 !! a.
Proof.
  intros Hwf. destruct (decide (length argv < 2)) as [Hl|Hl].
  - rewrite parse_short by done. eexists _, _, []. simpl.
    rewrite app_nil_r. by repeat split.
  - destruct (parse_outcome_world argv w0 Hwf)
      as (toks & w1 & i & ms & w & ok & w' & He & Hs & Hp & Hh & Hsu & Hpa & Hra & _); [lia|].
    destruct (scan_at_inv _ _ _ _ _ Hs) as (Hpa' & Hsu' & Hfr & _ & _ & Hra' & _).
    destruct (enters_frame _ _ _ _ He) as (Hh1 & Hsu1 & Hsc1 & _ & Hra1).
    exists ok, w', ms.*1. split; [done|].
    rewrite Hsu, Hsu', Hsu1, Hpa, Hpa', Hsc1, Hh, Hfr, Hh1, Hra, Hra', Hra1.
    repeat split. intros a Ha.
    destruct (scan_at_params _ _ _ _ _ Hs a) as [H1 _]. rewrite Hh1 in H1. by apply H1.
Qed.

Lemma parse_frame_witness :
  ∃ ok w' l,
    parse ["pixl"; "convert"; "-to"; "png"; "-verbose"] demo = Some (ok, w') ∧
    sub_heap w' = sub_heap demo ∧
    CliParser.subcommands (parser w') = CliParser.subcommands (parser demo) ∧
    frame (arg_heap w') = frame (arg_heap demo) ∧
    CliParserResult.args (result w') = CliParserResult.args (result demo) ++ l ∧
    ∀ a, a ∉ l → arg_heap w' !! a = arg_heap demo !! a.
Proof.
  apply (parse_frame ["pixl"; "convert"; "-to"; "png"; "-verbose"] demo demo_wf).
Defined.

(** X4: a [param] that [parse] has written holds a token of the command
    line that does not start with ['-'], and belongs to an object that takes
    a parameter. *)
Theorem stored_values_are_plain_tokens argv w0 :
  wf w0 →
  ∃ ok w',
    parse argv w0 = Some (ok, w') ∧
    ∀ a o', arg_heap w' !! a = Some o' →
            arg_heap w0 !! a = Some o' ∨
            (CliArg.hasParam o' = true ∧ starts_dash (CliArg.param o') = false ∧
             CliArg.param o' ∈ argv).
Proof.
  intros Hwf. destruct (decide (length argv < 2)) as [Hl|Hl].
  - rewrite parse_short by done. eexists _, _. split; [done|]. intros a o' Ho. by left.
  - destruct (parse_outcome_world argv w0 Hwf)
      as (toks & w1 & i & ms & w & ok & w' & He & Hs & Hp & Hh & _); [lia|].
    exists ok, w'. split; [done|]. intros a o'. rewrite Hh. intros Ho.
    destruct (scan_at_params _ _ _ _ _ Hs a) as [_ H2].
    destruct (enters_frame _ _ _ _ He) as (Hh1 & _).
    rewrite Hh1 in H2. destruct (H2 o' Ho) as [?|(? & ? & Hin)]; [by left|right].
    split; [done|]. split; [done|]. by eapply enters_suffix.
Qed.

Lemma stored_values_are_plain_tokens_witness :
  ∃ ok w',
    parse ["pixl"; "-out"; "a.png"; "-out"; "-b.png"] demo = Some (ok, w') ∧
    ∀ a o', arg_heap w' !! a = Some o' →
            arg_heap demo !! a = Some o' ∨
            (CliArg.hasParam o' = true ∧ starts_dash (CliArg.param o') = false ∧
             CliArg.param o' ∈ ["pixl"; "-out"; "a.png"; "-out"; "-b.png"]).
Proof.
  apply (stored_values_are_plain_tokens ["pixl"; "-out"; "a.png"; "-out"; "-b.png"]
           demo demo_wf).
Defined.

(** ** Reading the result *)

Lemma parse_success argv w0 w' :
  wf w0 → parse argv w0 = Some (true, w') →
  ∃ toks w1 ms,
    enters argv w0 toks w1 ∧ scan_ready w1 ∧ scan_at toks w1 (length toks) ms w' ∧
    check_required (CliParser.args (parser w')) w' = Some (true, w').
Proof.
  intros Hwf Hp. destruct (decide (length argv < 2)) as [Hl|Hl].
  - by rewrite parse_short in Hp.
  - destruct (enters_defined argv w0 Hwf) as (toks & w1 & He & Hr); [lia|].
    destruct (scan_at_complete toks w1 Hr) as (i & ms & w & Hs & [->|[Hi [w2 Hb]]]).
    + rewrite (parse_at _ _ _ _ _ _ _ He Hs), scan_done in Hp by done.
      destruct (check_required_cases _ _ _ _ Hp) as [(_ & -> & _)|([=] & _)].
      by exists toks, w1, ms.
    + rewrite (parse_at _ _ _ _ _ _ _ He Hs), (scan_fail _ _ _ _ Hi Hb) in Hp. done.
Qed.

Lemma scan_at_result_valid toks w0 i ms w :
  scan_ready w0 → scan_at toks w0 i ms w →
  Forall (λ r, is_Some (deref (arg_heap w) r)) (CliParserResult.args (result w)).
Proof. intros Hr Hs. exact (proj2 (scan_at_ready _ _ _ _ _ Hr Hs)). Qed.

(** X5: after any [parse] on a fresh result object, the result's lookup by
    name is defined; what it returns is a matched object of the parser's
    current argument vector that carries the name, and it returns [nullptr]
    only when no matched object carries the name. *)
Theorem result_lookup argv w0 name :
  wf w0 →
  CliParserResult.args (result w0) = [] →
  ∃ ok w' r,
    parse argv w0 = Some (ok, w') ∧
    Result_getArgument name w' = Some (r, w') ∧
    (r ≠ nullptr →
       r ∈ CliParserResult.args (result w') ∧ r ∈ CliParser.args (parser w') ∧
       ∃ o, deref (arg_heap w') r = Some o ∧ CliArg.name o = name) ∧
    (r = nullptr →
       ∀ a o, a ∈ CliParserResult.args (result w') →
              deref (arg_heap w') a = Some o → CliArg.name o ≠ name).
Proof.
  intros Hwf Hfresh. unfold Result_getArgument.
  destruct (decide (length argv < 2)) as [Hl|Hl].
  - rewrite parse_short by done. exists false, (fail_with "No args" w0), nullptr.
    simpl. rewrite Hfresh. simpl. repeat split; try done.
    intros _ a o Ha. by apply elem_of_nil in Ha.
  - destruct (parse_outcome_world argv w0 Hwf)
      as (toks & w1 & i & ms & w & ok & w' & He & Hs & Hp & Hh & _ & Hpa & Hra & _); [lia|].
    destruct (enters_defined argv w0 Hwf) as (toks' & w1' & He' & Hr); [lia|].
    assert (toks' = toks ∧ w1' = w1) as [-> ->].
    { destruct He as [? Hg|c cmd ? Hg ? Hd], He' as [? Hg'|c' cmd' ? Hg' ? Hd'];
        rewrite Hg in Hg'; inversion Hg'; subst; try done.
      rewrite Hd in Hd'. by inversion Hd'. }
    pose proof (scan_at_result_valid _ _ _ _ _ Hr Hs) as Hv.
    destruct (scan_at_inv _ _ _ _ _ Hs) as (Hpa' & _ & _ & _ & _ & Hra' & Hin).
    destruct (enters_frame _ _ _ _ He) as (_ & _ & _ & _ & Hra1).
    rewrite Hra1, Hfresh in Hra'. simpl in Hra'.
    rewrite <- Hh, <- Hra in Hv.
    destruct (find_named_defined CliArg.name _ _ name Hv) as [r Hf].
    exists ok, w', r. rewrite Hf. split; [done|]. split; [done|]. split.
    + intros Hn. destruct (find_named_found _ _ _ _ _ Hf Hn) as [Hrin Ho].
      split; [done|]. split; [|done].
      rewrite Hra, Hra' in Hrin. rewrite Forall_forall in Hin.
      destruct (Hin r Hrin) as [Hscope _].
      rewrite Hpa, Hpa'.
      destruct He; simpl in *; done.
    + intros -> a o Ha Ho. by eapply (find_named_null CliArg.name).
Qed.

Lemma result_lookup_witness :
  ∃ ok w' r,
    parse ["pixl"; "-verbose"; "-out"; "x"] demo = Some (ok, w') ∧
    Result_getArgument "out" w' = Some (r, w') ∧
    (r ≠ nullptr →
       r ∈ CliParserResult.args (result w') ∧ r ∈ CliParser.args (parser w') ∧
       ∃ o, deref (arg_heap w') r = Some o ∧ CliArg.name o = "out") ∧
    (r = nullptr →
       ∀ a o, a ∈ CliParserResult.args (result w') →
              deref (arg_heap w') a = Some o → CliArg.name o ≠ "out").
Proof.
  apply (result_lookup ["pixl"; "-verbose"; "-out"; "x"] demo "out" demo_wf).
  reflexivity.
Defined.

(** X6: when [parse] returns [true] on a fresh result object and the names
    in the parser's argument vector are unique, every required argument
    object of that vector is in the result. *)
Theorem success_has_required argv w0 w' :
  wf w0 →
  CliParserResult.args (result w0) = [] →
  parse argv w0 = Some (true, w') →
  unique_names (arg_heap w') (CliParser.args (parser w')) →
  ∀ b ob, b ∈ CliParser.args (parser w') → deref (arg_heap w') b = Some ob →
          CliArg.required ob = true → b ∈ CliParserResult.args (result w').
Proof.
  intros Hwf Hfresh Hp Hu b ob Hb Hob Hreq.
  destruct (parse_success _ _ _ Hwf Hp) as (toks & w1 & ms & He & Hr & Hs & Hc).
  destruct (check_required_cases _ _ _ _ Hc) as [(_ & _ & Hall)|([=] & _)].
  destruct (Hall b ob Hb Hob Hreq) as (r & Hf & Hn).
  unfold Result_getArgument in Hf.
  destruct (find_named _ _ _ _) as [x|] eqn:Hfind; [|done]. inversion Hf; subst x.
  destruct (find_named_found _ _ _ _ _ Hfind Hn) as [Hrin (o & Ho & Hname)].
  destruct (scan_at_inv _ _ _ _ _ Hs) as (Hpa & _ & _ & _ & _ & Hra & Hin).
  destruct (enters_frame _ _ _ _ He) as (_ & _ & _ & _ & Hra1).
  rewrite Hra1, Hfresh in Hra. simpl in Hra.
  assert (Hscope : r ∈ CliParser.args (parser w')).
  { rewrite Hpa. rewrite Forall_forall in Hin. apply Hin. by rewrite <- Hra. }
  by rewrite <- (Hu r b o ob Hscope Hb Ho Hob Hname).
Qed.

Lemma success_has_required_witness :
  let w' := pushed 4%N (stored 4%N "png" (CliArg.new "to" "target format" true true)
              (in_subcommand 7%N (CliSubcommand.mk "convert" [3%N; 4%N]) demo)) in
  4%N ∈ CliParserResult.args (result w').
Proof.
  intros w'.
  apply (success_has_required ["pixl"; "convert"; "-to"; "png"] demo w')
    with (ob := CliArg.set_param "png" (CliArg.new "to" "target format" true true)).
  - exact demo_wf.
  - reflexivity.
  - reflexivity.
  - intros a b oa ob Ha Hb Hoa Hob Hn.
    apply elem_of_cons in Ha as [->|Ha]; [|apply list_elem_of_singleton in Ha as ->];
      (apply elem_of_cons in Hb as [->|Hb]; [|apply list_elem_of_singleton in Hb as ->]);
      try done; vm_compute in Hoa, Hob; inversion Hoa; inversion Hob; subst; discriminate Hn.
  - simpl. apply elem_of_cons. right. apply list_elem_of_singleton. reflexivity.
  - reflexivity.
  - reflexivity.
Defined.

(** ** The accepted command lines *)

Lemma starts_dash_skip1 s : starts_dash s = true → s = String "-" (skip1 s).
Proof.
  destruct s as [|c s]; [done|]. unfold starts_dash. simpl.
  intros Hc. apply Ascii.eqb_eq in Hc. by subst c.
Qed.

Lemma tokens_of_app l1 l2 : tokens_of (l1 ++ l2) = tokens_of l1 ++ tokens_of l2.
Proof. unfold tokens_of. by rewrite map_app, concat_app. Qed.

Lemma take_tok toks i : i < length toks → take (S i) toks = take i toks ++ [tok toks i].
Proof.
  intros Hi. destruct (lookup_lt_is_Some_2 toks i Hi) as [x Hx].
  rewrite (take_S_r _ _ _ Hx). unfold tok. by rewrite (nth_lookup_Some _ _ _ _ Hx).
Qed.

Lemma item_for_frame h h' it a :
  frame h = frame h' → item_for h it a → item_for h' it a.
Proof.
  intros Hf (o & Ho & Hn & Hk).
  destruct (frame_lookup _ _ _ _ Hf Ho) as (o' & Ho' & Hsame).
  apply set_param_fields in Hsame as (Hn' & Hp' & _).
  exists o'. rewrite Hn', Hp'. by repeat split.
Qed.

(** The tokens consumed so far spell the matches made so far. *)
Lemma scan_at_tokens toks w0 i ms w :
  scan_at toks w0 i ms w →
  ∃ items, take i toks = tokens_of items ∧ Forall2 (item_for (arg_heap w0)) items ms.*1.
Proof.
  induction 1 as [|i ms w a w' Hs (items & Ht & Hall) Hi H1 H2 Hg Hp
                  |i ms w a w' Hs (items & Ht & Hall) Hi H1 H2 Hg Hp].
  - exists []. split; [by rewrite take_0|constructor].
  - destruct (scan_at_inv _ _ _ _ _ Hs) as (_ & _ & Hfr & _).
    apply processArgument_true in Hp as (arg & o & Hg' & _ & _ & Ho & Hn & Hhp & _).
    rewrite Hg in Hg'. inversion Hg'; subst arg.
    exists (items ++ [Valued (skip1 (tok toks i)) (tok toks (i + 1))]). split.
    + rewrite tokens_of_app, <- Ht. unfold tokens_of. simpl.
      rewrite <- (starts_dash_skip1 _ H1).
      replace (i + 2) with (S (S i)) by lia. replace (i + 1) with (S i) by lia.
      rewrite take_tok by lia. rewrite take_tok by lia. by rewrite <- app_assoc.
    + rewrite fmap_app. apply Forall2_app; [done|]. constructor; [|constructor].
      apply (item_for_frame (arg_heap w)); [done|]. by exists o.
  - destruct (scan_at_inv _ _ _ _ _ Hs) as (_ & _ & Hfr & _).
    apply processFlag_true in Hp as (arg & o & Hg' & _ & _ & Ho & Hn & Hhp & _).
    rewrite Hg in Hg'. inversion Hg'; subst arg.
    exists (items ++ [Bare (skip1 (tok toks i))]). split.
    + rewrite tokens_of_app, <- Ht. unfold tokens_of. simpl.
      rewrite <- (starts_dash_skip1 _ H1).
      replace (i + 1) with (S i) by lia. by rewrite take_tok by lia.
    + rewrite fmap_app. apply Forall2_app; [done|]. constructor; [|constructor].
      apply (item_for_frame (arg_heap w)); [done|]. by exists o.
Qed.

(** X7: when [parse] returns [true], the tokens behind the program name
    (and behind the subcommand, if one was chosen) are exactly a sequence of
    flags [-name] and [-name value], one for each object appended to the
    result, in order: the object carries the name, a value is present
    exactly if the object takes a parameter, and no value starts with
    ['-']. *)
Theorem accepted_line_is_flags argv w0 w' :
  wf w0 →
  parse argv w0 = Some (true, w') →
  ∃ toks items l,
    (toks = drop 1 argv ∨ toks = drop 2 argv) ∧
    toks = tokens_of items ∧
    CliParserResult.args (result w') = CliParserResult.args (result w0) ++ l ∧
    Forall2 (item_for (arg_heap w')) items l.
Proof.
  intros Hwf Hp.
  destruct (parse_success _ _ _ Hwf Hp) as (toks & w1 & ms & He & Hr & Hs & Hc).
  destruct (scan_at_tokens _ _ _ _ _ Hs) as (items & Ht & Hall).
  destruct (scan_at_inv _ _ _ _ _ Hs) as (_ & _ & Hfr & _ & _ & Hra & _).
  destruct (enters_frame _ _ _ _ He) as (_ & _ & _ & _ & Hra1).
  exists toks, items, ms.*1. split; [by destruct He; [left|right]|].
  split; [by rewrite <- Ht, firstn_all|]. split; [by rewrite Hra, Hra1|].
  eapply Forall2_impl; [exact Hall|]. intros it a. by apply item_for_frame.
Qed.

Lemma accepted_line_is_flags_witness :
  let w' := pushed 4%N (stored 4%N "png" (CliArg.new "to" "target format" true true)
              (in_subcommand 7%N (CliSubcommand.mk "convert" [3%N; 4%N]) demo)) in
  ∃ toks items l,
    (toks = drop 1 ["pixl"; "convert"; "-to"; "png"] ∨
     toks = drop 2 ["pixl"; "convert"; "-to"; "png"]) ∧
    toks = tokens_of items ∧
    CliParserResult.args (result w') = CliParserResult.args (result demo) ++ l ∧
    Forall2 (item_for (arg_heap w')) items l.
Proof.
  intros w'.
  apply (accepted_line_is_flags ["pixl"; "convert"; "-to"; "png"] demo w').
  - exact demo_wf.
  - reflexivity.
Defined.

Lemma tok_middle l1 x l2 : tok (l1 ++ x :: l2) (length l1) = x.
Proof. unfold tok. apply nth_middle. Qed.

Lemma tok_middle_next l1 x y l2 : tok (l1 ++ x :: y :: l2) (length l1 + 1) = y.
Proof.
  change (l1 ++ x :: y :: l2) with (l1 ++ [x] ++ y :: l2). rewrite app_assoc.
  replace (length l1 + 1) with (length (l1 ++ [x])) by (rewrite length_app; simpl; lia).
  apply tok_middle.
Qed.

Lemma tokens_of_cons it post :
  ∃ n rest, tokens_of (it :: post) = String "-" n :: rest.
Proof. destruct it as [n|n v]; by eexists _, _. Qed.

Lemma getArgument_frame name w1 w a :
  parser w = parser w1 → frame (arg_heap w) = frame (arg_heap w1) →
  getArgument name w1 = Some (a, w1) → getArgument name w = Some (a, w).
Proof.
  intros Hp Hf. rewrite !getArgument_unfold, Hp, (frame_find_named _ _ _ _ Hf).
  destruct (find_named _ _ _ _) as [x|]; [|done]. by intros [= ->].
Qed.

(** A sequence of flags that the registry knows is scanned to its end. *)
Lemma scan_at_items w1 post pre :
  ∀ l, Forall2 (accepts_item w1) pre l →
  ∃ ms w, scan_at (tokens_of (pre ++ post)) w1 (length (tokens_of pre)) ms w ∧
          ms = zip l (map item_value pre).
Proof.
  revert post. induction pre as [|it pre IH] using rev_ind; intros post l Hall.
  - apply Forall2_nil_inv_l in Hall as ->. exists [], w1. split; [apply scan_at_start|done].
  - apply Forall2_app_inv_l in Hall as (l1 & l2 & Hall & Hit & ->).
    apply Forall2_cons_inv_l in Hit as (a & l3 & [Hg Hfor] & Hnil & ->).
    apply Forall2_nil_inv_l in Hnil as ->.
    destruct (IH (it :: post) l1 Hall) as (ms & w & Hs & Hms).
    assert (Hzip : ∀ x, zip (l1 ++ [a]) (map item_value (pre ++ [it]))
                        = ms ++ [(a, x)] ↔ x = item_value it).
    { intros x. rewrite map_app, zip_with_app
        by (rewrite length_map; symmetry; by eapply Forall2_length).
      rewrite <- Hms. simpl. split; [by intros [= ->]%app_inv_head|by intros ->]. }
    rewrite <- app_assoc. simpl.
    set (toks := tokens_of (pre ++ it :: post)) in *.
    destruct (scan_at_inv _ _ _ _ _ Hs) as (Hpa & _ & Hfr & _).
    pose proof (getArgument_frame _ _ _ _ Hpa Hfr Hg) as Hgw.
    destruct Hfor as (o & Ho & Hn & Hk). symmetry in Hfr.
    destruct (frame_lookup _ _ _ _ Hfr Ho) as (o' & Ho' & Hsame).
    apply set_param_fields in Hsame as (_ & Hhp & _).
    assert (Hnn : N.eqb a nullptr = false).
    { apply N.eqb_neq. intros ->. unfold deref in Ho. by rewrite decide_True in Ho. }
    assert (Htoks : toks = tokens_of pre ++ item_tokens it ++ tokens_of post).
    { unfold toks. rewrite tokens_of_app. by unfold tokens_of. }
    rewrite getArgument_unfold in Hgw.
    destruct (find_named CliArg.name (arg_heap w) (CliParser.args (parser w))
                (item_name it)) as [x|] eqn:Hfind; [|done].
    inversion Hgw; subst x.
    rewrite tokens_of_app, length_app.
    destruct it as [n|n v]; simpl in *.
    + exists (ms ++ [(a, None)]), (pushed a w). split.
      * assert (Ht : tok toks (length (tokens_of pre)) = String "-" n)
          by (rewrite Htoks; apply tok_middle).
        apply (scan_at_flag toks w1 (length (tokens_of pre)) ms w a); try done.
        -- rewrite Htoks, length_app. simpl. lia.
        -- by rewrite Ht.
        -- intros Hle. destruct post as [|it' post].
           ++ rewrite Htoks, length_app in Hle. simpl in Hle. lia.
           ++ destruct (tokens_of_cons it' post) as (n' & rest & Hr).
              rewrite Htoks. simpl. rewrite Hr. by rewrite tok_middle_next.
        -- rewrite Ht. simpl. by rewrite getArgument_unfold, Hfind.
        -- rewrite Ht. simpl. rewrite processFlag_unfold, Hfind, Hnn, Ho', Hhp, Hk. done.
      * symmetry. by apply Hzip.
    + destruct Hk as [Hk Hv].
      assert (Ht : tok toks (length (tokens_of pre)) = String "-" n)
        by (rewrite Htoks; apply tok_middle).
      assert (Ht' : tok toks (length (tokens_of pre) + 1) = v)
        by (rewrite Htoks; apply tok_middle_next).
      exists (ms ++ [(a, Some (tok toks (length (tokens_of pre) + 1)))]),
             (pushed a (stored a v o' w)). split.
      * apply (scan_at_value toks w1 (length (tokens_of pre)) ms w a); try done.
        -- rewrite Htoks, length_app. simpl. lia.
        -- by rewrite Ht.
        -- by rewrite Ht'.
        -- rewrite Ht. simpl. by rewrite getArgument_unfold, Hfind.
        -- rewrite Ht, Ht'. simpl.
           rewrite processArgument_unfold, Hfind, Hnn, Ho', Hhp, Hk. done.
      * rewrite Ht'. symmetry. by apply Hzip.
Qed.

Lemma flags_accepted_run argv w0 w1 items l :
  enters argv w0 (tokens_of items) w1 →
  scan_ready w1 →
  Forall2 (accepts_item w1) items l →
  (∀ b ob, b ∈ CliParser.args (parser w1) → deref (arg_heap w1) b = Some ob →
           CliArg.required ob = true → CliArg.name ob ∈ map item_name items) →
  ∃ w', parse argv w0 = Some (true, w') ∧
        CliParserResult.args (result w') = CliParserResult.args (result w0) ++ l ∧
        CliParserResult.errorMessage (result w') = CliParserResult.errorMessage (result w0).
Proof.
  intros He Hr Hall Hreq.
  destruct (scan_at_items w1 [] items l Hall) as (ms & w & Hs & Hzip).
  assert (Hms : ms.*1 = l).
  { rewrite Hzip. apply fst_zip. rewrite length_map.
    by rewrite (Forall2_length _ _ _ Hall). }
  rewrite app_nil_r in Hs.
  destruct (scan_at_inv _ _ _ _ _ Hs) as (Hpa & _ & Hfr & Herr & _ & Hra & _).
  destruct (enters_frame _ _ _ _ He) as (_ & _ & _ & Herr1 & Hra1).
  pose proof (scan_at_ready _ _ _ _ _ Hr Hs) as [Hv Hvr].
  exists w. split; [|split; [by rewrite Hra, Hra1, Hms|by rewrite Herr, Herr1]].
  rewrite (parse_at _ _ _ _ _ _ _ He Hs), scan_done by done.
  apply check_required_ok. apply Forall_forall. intros b Hb.
  rewrite Forall_forall in Hv. destruct (Hv b Hb) as [ob Hob].
  exists ob. split; [done|]. intros Hrb.
  destruct (find_named_defined CliArg.name _ _ (CliArg.name ob) Hvr) as [r Hf].
  exists r. split; [done|]. intros ->.
  destruct (frame_lookup _ _ _ _ Hfr Hob) as (ob1 & Hob1 & Hsame).
  apply set_param_fields in Hsame as (Hn1 & _ & Hr1).
  rewrite Hpa in Hb.
  assert (Hin : CliArg.name ob1 ∈ map item_name items)
    by (apply (Hreq b ob1 Hb Hob1); congruence).
  apply list_elem_of_fmap in Hin as (it & Hname & Hit).
  apply list_elem_of_lookup in Hit as [k Hk].
  destruct (Forall2_lookup_l _ _ _ _ _ Hall Hk) as (a & Ha & _ & (o & Ho & Hno & _)).
  symmetry in Hfr.
  destruct (frame_lookup _ _ _ _ Hfr Ho) as (o' & Ho' & Hsame).
  apply set_param_fields in Hsame as (Hn' & _).
  apply (find_named_null _ _ _ _ Hf a o'); [|done|congruence].
  rewrite Hra, Hms. apply elem_of_app. right. by eapply list_elem_of_lookup_2.
Qed.

(** X8: a command line that is, behind the program name and the optional
    subcommand, a sequence of flags each of which the active scope resolves
    to a fitting object, and that names every required argument of the
    scope, is accepted: [parse] returns [true] and appends the resolved
    objects to the result in the order of the command line. *)
Theorem flags_are_accepted argv w0 w1 items l :
  enters argv w0 (tokens_of items) w1 →
  scan_ready w1 →
  Forall2 (accepts_item w1) items l →
  (∀ b ob, b ∈ CliParser.args (parser w1) → deref (arg_heap w1) b = Some ob →
           CliArg.required ob = true → CliArg.name ob ∈ map item_name items) →
  ∃ w', parse argv w0 = Some (true, w') ∧
        CliParserResult.args (result w') = CliParserResult.args (result w0) ++ l ∧
        CliParserResult.errorMessage (result w') = CliParserResult.errorMessage (result w0).
Proof. exact (flags_accepted_run argv w0 w1 items l). Qed.

(** [pixl -verbose -out x] on the demo registry. *)
Lemma flags_are_accepted_witness :
  ∃ w', parse ["pixl"; "-verbose"; "-out"; "x"] demo = Some (true, w') ∧
        CliParserResult.args (result w') = CliParserResult.args (result demo) ++ [2%N; 1%N] ∧
        CliParserResult.errorMessage (result w') = CliParserResult.errorMessage (result demo).
Proof.
  apply (flags_are_accepted ["pixl"; "-verbose"; "-out"; "x"] demo demo
           [Bare "verbose"; Valued "out" "x"] [2%N; 1%N]).
  - apply (enters_flat ["pixl"; "-verbose"; "-out"; "x"] demo); [simpl; lia|reflexivity].
  - split; [exact (wf_args _ demo_wf)|exact (wf_result _ demo_wf)].
  - repeat constructor; by eexists.
  - intros b ob Hb Hob Hr.
    apply elem_of_cons in Hb as [->|Hb]; [|apply list_elem_of_singleton in Hb as ->];
      vm_compute in Hob; inversion Hob; subst ob; [|discriminate Hr].
    simpl. apply elem_of_cons. right. apply list_elem_of_singleton. reflexivity.
Defined.

(** ** Registration *)

Lemma find_named_app {A : Type} (nm : A → string) h v1 v2 name :
  find_named nm h (v1 ++ v2) name =
  match find_named nm h v1 name with
  | Some r => if N.eqb r nullptr then find_named nm h v2 name else Some r
  | None => None
  end.
Proof.
  induction v1 as [|x v1 IH]; simpl; [done|].
  destruct (deref h x) as [o|] eqn:Hx; [|done].
  destruct (String.eqb (nm o) name); [|done].
  destruct (N.eqb x nullptr) eqn:Hz; [|done].
  apply N.eqb_eq in Hz. subst x. unfold deref in Hx. by rewrite decide_True in Hx.
Qed.

(** X9: after [addArg], the parser's lookup of a name still returns what it
    returned before if that was an object; otherwise it returns the new
    object if that carries the name, and [nullptr] if not.  An earlier
    registration is never shadowed, a later one with the same name is never
    found. *)
Theorem lookup_after_addArg w arg a name r :
  deref (arg_heap w) arg = Some a →
  getArgument name w = Some (r, w) →
  let w' := with_parser (CliParser.addArg arg (parser w)) w in
  getArgument name w' =
  Some (if N.eqb r nullptr
        then (if String.eqb (CliArg.name a) name then arg else nullptr)
        else r, w').
Proof.
  intros Ha Hg w'. rewrite getArgument_unfold in *. unfold w'. simpl.
  rewrite find_named_app.
  destruct (find_named _ _ (CliParser.args (parser w)) name) as [x|]; [|done].
  inversion Hg; subst x. destruct (N.eqb r nullptr); [|done].
  simpl. rewrite Ha. by destruct (String.eqb (CliArg.name a) name).
Qed.

Lemma lookup_after_addArg_witness :
  let w' := with_parser (CliParser.addArg 3%N (parser demo)) demo in
  getArgument "quality" w' =
  Some (if N.eqb nullptr nullptr
        then (if String.eqb
                   (CliArg.name (CliArg.new "quality" "compression quality" true false))
                   "quality"
              then 3%N else nullptr)
        else nullptr, w').
Proof.
  apply (lookup_after_addArg demo 3%N
           (CliArg.new "quality" "compression quality" true false) "quality" nullptr).
  - reflexivity.
  - reflexivity.
Defined.

(** X10: the same for subcommands: after [addSubcommand], the lookup of a
    name returns the subcommand it returned before, if any, and otherwise
    the new subcommand exactly if it carries the name. *)
Theorem lookup_after_addSubcommand w sub cmd name r :
  deref (sub_heap w) sub = Some cmd →
  getSubcommand name w = Some (r, w) →
  let w' := with_parser (CliParser.addSubcommand sub (parser w)) w in
  getSubcommand name w' =
  Some (if N.eqb r nullptr
        then (if String.eqb (CliSubcommand.name cmd) name then sub else nullptr)
        else r, w').
Proof.
  intros Hc Hg w'. unfold getSubcommand in *. unfold w'. simpl.
  rewrite find_named_app.
  destruct (find_named _ _ (CliParser.subcommands (parser w)) name) as [x|]; [|done].
  inversion Hg; subst x. destruct (N.eqb r nullptr); [|done].
  simpl. rewrite Hc. by destruct (String.eqb (CliSubcommand.name cmd) name).
Qed.

Lemma lookup_after_addSubcommand_witness :
  let w' := with_parser (CliParser.addSubcommand 7%N (parser demo)) demo in
  getSubcommand "convert" w' =
  Some (if N.eqb 7%N nullptr
        then (if String.eqb (CliSubcommand.name (CliSubcommand.mk "convert" [3%N; 4%N]))
                            "convert"
              then 7%N else nullptr)
        else 7%N, w').
Proof.
  apply (lookup_after_addSubcommand demo 7%N (CliSubcommand.mk "convert" [3%N; 4%N])
           "convert" 7%N).
  - reflexivity.
  - reflexivity.
Defined.

(** ** A parser that is used twice *)

Lemma unknown_flag_iteration flag rest u :
  getArgument flag u = Some (nullptr, u) →
  loop_body (String "-" flag :: rest) 0 u =
  Some (None, fail_with ("Unkown argument " +:+ flag) u).
Proof.
  intros Hg. rewrite getArgument_unfold in Hg.
  destruct (find_named _ _ _ _) as [x|] eqn:Hf; [|done]. inversion Hg; subst x.
  unfold loop_body.
  destruct (_ && _ && _); [|change (starts_dash (tok (String "-" flag :: rest) 0)) with true];
    unfold mbind, M_bind, mret, M_ret; change (skip1 (tok (String "-" flag :: rest) 0)) with flag.
  - by rewrite processArgument_unfold, Hf.
  - by rewrite processFlag_unfold, Hf.
Qed.

(** X11: once a subcommand-style [parse] has returned, the parser resolves
    flags in that subcommand's arguments for good: a later [parse] on the
    same parser, with any result object, rejects a flag that the subcommand
    does not declare as unknown, whether or not it is registered at top
    level. *)
Theorem top_level_flags_lost prog rest w0 c cmd flag :
  wf w0 →
  c ∈ CliParser.subcommands (parser w0) →
  deref (sub_heap w0) c = Some cmd →
  (∀ c' cmd', c' ∈ CliParser.subcommands (parser w0) →
              deref (sub_heap w0) c' = Some cmd' →
              CliSubcommand.name cmd' = CliSubcommand.name cmd → c' = c) →
  (∀ c' cmd', c' ∈ CliParser.subcommands (parser w0) →
              deref (sub_heap w0) c' = Some cmd' →
              CliSubcommand.name cmd' ≠ String "-" flag) →
  (∀ a o, a ∈ CliSubcommand.args cmd → deref (arg_heap w0) a = Some o →
          CliArg.name o ≠ flag) →
  ∃ ok w1,
    parse (prog :: CliSubcommand.name cmd :: rest) w0 = Some (ok, w1) ∧
    ∀ prog2 rest2 r,
      parse (prog2 :: String "-" flag :: rest2) (with_result r w1) =
      Some (false, fail_with ("Unkown argument " +:+ flag) (with_result r w1)).
Proof.
  intros Hwf Hin Hcmd Hu Hnosub Hnoarg.
  destruct (subcommand_parse w0 c cmd Hwf Hin Hcmd Hu prog rest)
    as (ok & w1 & Hp & _ & (Hpa & Hsu & Hfr & _)).
  simpl in Hpa, Hsu, Hfr.
  exists ok, w1. split; [done|]. intros prog2 rest2 r.
  set (u := with_result r w1).
  assert (He : enters (prog2 :: String "-" flag :: rest2) u (String "-" flag :: rest2) u).
  { apply (enters_flat (prog2 :: String "-" flag :: rest2) u); [simpl; lia|].
    unfold getSubcommand. simpl. rewrite Hpa, Hsu. simpl.
    destruct (find_named_defined CliSubcommand.name (sub_heap w0)
                (CliParser.subcommands (parser w0)) (String "-" flag)) as [x Hx].
    { eapply Forall_impl; [exact (wf_subcommands _ Hwf)|].
      simpl. intros y (o & Ho & _). by exists o. }
    change (tok (prog2 :: String "-" flag :: rest2) 1) with (String "-" flag).
    rewrite Hx. destruct (decide (x = nullptr)) as [->|Hn]; [done|].
    destruct (find_named_found _ _ _ _ _ Hx Hn) as [Hxin (o & Ho & Hno)].
    by destruct (Hnosub x o Hxin Ho). }
  rewrite (parse_at _ _ _ _ _ _ _ He (scan_at_start _ _)).
  apply scan_fail; [simpl; lia|]. apply unknown_flag_iteration.
  rewrite getArgument_unfold. unfold u. simpl. rewrite Hpa. simpl.
  destruct (subcommand_ready w0 c cmd Hwf Hin Hcmd) as [Hv _]. simpl in Hv.
  assert (Hv1 : Forall (λ a, is_Some (deref (arg_heap w1) a)) (CliSubcommand.args cmd)).
  { eapply Forall_impl; [exact Hv|]. intros a Ha.
    by apply (valid_arg_frame (in_subcommand c cmd w0) w1). }
  destruct (find_named_defined CliArg.name _ _ flag Hv1) as [x Hx].
  rewrite Hx. destruct (decide (x = nullptr)) as [->|Hn]; [done|].
  destruct (find_named_found _ _ _ _ _ Hx Hn) as [Hxin (o & Ho & Hno)].
  destruct (frame_lookup _ _ _ _ Hfr Ho) as (o0 & Ho0 & Hsame).
  apply set_param_fields in Hsame as (Hn0 & _).
  destruct (Hnoarg x o0 Hxin Ho0). congruence.
Qed.

(** After [pixl convert -to png], the top-level [-verbose] is unknown. *)
Lemma top_level_flags_lost_witness :
  ∃ ok w1,
    parse ["pixl"; "convert"; "-to"; "png"] demo = Some (ok, w1) ∧
    ∀ prog2 rest2 r,
      parse (prog2 :: "-verbose" :: rest2) (with_result r w1) =
      Some (false, fail_with "Unkown argument verbose" (with_result r w1)).
Proof.
  apply (top_level_flags_lost "pixl" ["-to"; "png"] demo 7%N
           (CliSubcommand.mk "convert" [3%N; 4%N]) "verbose").
  - exact demo_wf.
  - simpl. apply list_elem_of_singleton. reflexivity.
  - reflexivity.
  - exact demo_convert_unique.
  - intros c' cmd' Hc Hd. simpl in Hc. apply list_elem_of_singleton in Hc. subst c'.
    vm_compute in Hd. inversion Hd. discriminate.
  - intros a o Ha Hd. simpl in Ha.
    apply elem_of_cons in Ha as [->|Ha]; [|apply list_elem_of_singleton in Ha as ->];
      vm_compute in Hd; inversion Hd; discriminate.
Defined.

(** ** Repeated and unknown flags *)

(** X17: on an accepted command line, the object that a flag with a value
    resolves to holds the value of the last occurrence of that flag. *)
Theorem last_value_wins argv w0 w1 items l :
  enters argv w0 (tokens_of items) w1 →
  scan_ready w1 →
  Forall2 (accepts_item w1) items l →
  (∀ b ob, b ∈ CliParser.args (parser w1) → deref (arg_heap w1) b = Some ob →
           CliArg.required ob = true → CliArg.name ob ∈ map item_name items) →
  ∃ w', parse argv w0 = Some (true, w') ∧
        ∀ items1 n v items2,
          items = items1 ++ Valued n v :: items2 →
          (∀ v', Valued n v' ∉ items2) →
          ∃ a o, getArgument n w' = Some (a, w') ∧
                 deref (arg_heap w') a = Some o ∧ CliArg.param o = v.
Proof.
  intros He Hr Hall Hreq.
  destruct (flags_accepted_run _ _ _ _ _ He Hr Hall Hreq) as (w' & Hp & _).
  destruct (scan_at_items w1 [] items l Hall) as (ms & w & Hs & Hzip).
  rewrite app_nil_r in Hs.
  assert (w' = w) as ->.
  { rewrite (parse_at _ _ _ _ _ _ _ He Hs), scan_done in Hp by done.
    by destruct (check_required_cases _ _ _ _ Hp) as [(_ & -> & _)|([=] & _)]. }
  exists w. split; [done|]. intros items1 n v items2 -> Hlast.
  apply Forall2_app_inv_l in Hall as (l1 & l2' & Hall1 & Hall2 & ->).
  apply Forall2_cons_inv_l in Hall2 as (a & l2 & [Hg (o1 & Ho1 & Hn1 & _)] & Hall2 & ->).
  rewrite map_app, zip_with_app in Hzip
    by (rewrite length_map; symmetry; by eapply Forall2_length).
  simpl in Hzip.
  destruct (scan_at_inv _ _ _ _ _ Hs) as (Hpa & _ & Hfr & _).
  destruct (scan_at_values _ _ _ _ _ Hs _ a v _ Hzip) as (o & Ho & Hv).
  - intros v' Hin.
    apply elem_of_lookup_zip_with in Hin as (k & x & y & [= <- <-] & Hx & Hy).
    rewrite list_lookup_fmap in Hy.
    destruct (items2 !! k) as [it'|] eqn:Hk; [|done].
    destruct it' as [n'|n' v'']; [done|]. simpl in Hy. inversion Hy; subst v''.
    destruct (Forall2_lookup_l _ _ _ _ _ Hall2 Hk) as (a' & Ha' & _ & (o' & Ho' & Hn' & _)).
    rewrite Hx in Ha'. inversion Ha'; subst a'.
    rewrite Ho1 in Ho'. inversion Ho'; subst o'. simpl in Hn1, Hn'.
    apply (Hlast v'). rewrite <- Hn1, Hn'. by eapply list_elem_of_lookup_2.
  - exists a, o. split; [|done]. by apply (getArgument_frame _ w1).
Qed.

(** [pixl convert -quality 5 -to png -quality 9]: [quality] ends up as 9. *)
Lemma last_value_wins_witness :
  ∃ w', parse ["pixl"; "convert"; "-quality"; "5"; "-to"; "png"; "-quality"; "9"] demo
          = Some (true, w') ∧
        ∀ items1 n v items2,
          [Valued "quality" "5"; Valued "to" "png"; Valued "quality" "9"]
            = items1 ++ Valued n v :: items2 →
          (∀ v', Valued n v' ∉ items2) →
          ∃ a o, getArgument n w' = Some (a, w') ∧
                 deref (arg_heap w') a = Some o ∧ CliArg.param o = v.
Proof.
  apply (last_value_wins
           ["pixl"; "convert"; "-quality"; "5"; "-to"; "png"; "-quality"; "9"] demo
           (in_subcommand 7%N (CliSubcommand.mk "convert" [3%N; 4%N]) demo)
           [Valued "quality" "5"; Valued "to" "png"; Valued "quality" "9"]
           [3%N; 4%N; 3%N]).
  - apply (enters_sub
             ["pixl"; "convert"; "-quality"; "5"; "-to"; "png"; "-quality"; "9"] demo 7%N
             (CliSubcommand.mk "convert" [3%N; 4%N]));
      [simpl; lia|reflexivity|done|reflexivity].
  - split; simpl; repeat constructor; by eexists.
  - repeat constructor; by eexists.
  - intros b ob Hb Hob Hr. simpl in Hb.
    apply elem_of_cons in Hb as [->|Hb]; [|apply list_elem_of_singleton in Hb as ->];
      vm_compute in Hob; inversion Hob; subst ob; [discriminate Hr|].
    simpl. apply elem_of_cons. right. apply elem_of_cons. left. reflexivity.
Defined.

(** X18: at any point the scan reaches, a flag whose name the active scope
    does not resolve makes [parse] return [false], with or without a value
    behind the flag; the message is "Unkown argument <name>", as the code
    spells it. *)
Theorem unknown_flag_rejected argv w0 toks w1 i ms w :
  enters argv w0 toks w1 →
  scan_at toks w1 i ms w →
  i < length toks →
  starts_dash (tok toks i) = true →
  getArgument (skip1 (tok toks i)) w = Some (nullptr, w) →
  parse argv w0 =
  Some (false, fail_with ("Unkown argument " +:+ skip1 (tok toks i)) w).
Proof.
  intros He Hs Hi Hd Hg.
  rewrite (parse_at _ _ _ _ _ _ _ He Hs). apply scan_fail; [done|].
  rewrite getArgument_unfold in Hg.
  destruct (find_named _ _ _ _) as [x|] eqn:Hf; [|done]. inversion Hg; subst x.
  unfold loop_body. rewrite Hd.
  destruct (_ && _ && _); unfold mbind, M_bind, mret, M_ret.
  - by rewrite processArgument_unfold, Hf.
  - by rewrite processFlag_unfold, Hf.
Qed.

Lemma unknown_flag_rejected_witness :
  parse ["pixl"; "-out"; "a.png"; "-colour"; "red"] demo =
  Some (false, fail_with "Unkown argument colour"
                 (pushed 1%N (stored 1%N "a.png" (CliArg.new "out" "output file" true true) demo))).
Proof.
  apply (unknown_flag_rejected ["pixl"; "-out"; "a.png"; "-colour"; "red"] demo
           ["-out"; "a.png"; "-colour"; "red"] demo 2 [(1%N, Some "a.png")]).
  - apply enters_flat; [simpl; lia|reflexivity].
  - apply (scan_at_value ["-out"; "a.png"; "-colour"; "red"] demo 0 [] demo 1%N);
      [apply scan_at_start|simpl; lia|reflexivity..].
  - simpl; lia.
  - reflexivity.
  - reflexivity.
Defined.

(** * Properties of [aswap] *)

Section aswap.
Context {u8 : Type}.
Implicit Types (m : gmap Z u8) (x y len i p q : Z).

Local Open Scope Z_scope.

Lemma swap_cells_lookup p q m m' :
  swap_cells p q m = Some m' → ∀ r, m' !! r = m !! transpose p q r.
Proof.
  unfold swap_cells, transpose.
  destruct (m !! p) as [a|] eqn:Hp; [|done].
  destruct (m !! q) as [b|] eqn:Hq; [|done].
  intros [= <-] r.
  destruct (decide (r = q)) as [->|Hrq].
  - rewrite lookup_insert_eq. destruct (decide (q = p)) as [->|]; congruence.
  - rewrite lookup_insert_ne by done.
    destruct (decide (r = p)) as [->|Hrp].
    + by rewrite lookup_insert_eq.
    + by rewrite lookup_insert_ne.
Qed.

Lemma swap_cells_defined p q m :
  is_Some (m !! p) → is_Some (m !! q) → is_Some (swap_cells p q m).
Proof. intros [a Ha] [b Hb]. unfold swap_cells. rewrite Ha, Hb. by eexists. Qed.

Lemma swap_cells_accessible p q m m' :
  swap_cells p q m = Some m' →
  is_Some (m !! p) ∧ is_Some (m !! q) ∧ ∀ r, is_Some (m' !! r) ↔ is_Some (m !! r).
Proof.
  intros Hs. pose proof (swap_cells_lookup _ _ _ _ Hs) as Hl.
  unfold swap_cells in Hs.
  destruct (m !! p) as [a|] eqn:Hp; [|done].
  destruct (m !! q) as [b|] eqn:Hq; [|done].
  split; [by eexists|]. split; [by eexists|].
  intros r. rewrite Hl. unfold transpose.
  destruct (decide (r = p)) as [->|]; [by rewrite Hp, Hq|].
  destruct (decide (r = q)) as [->|]; [by rewrite Hp, Hq|done].
Qed.

Lemma transpose_involutive p q r : transpose p q (transpose p q r) = r.
Proof. unfold transpose. repeat case_decide; congruence. Qed.

(** The loop from [i] on, for ranges that do not overlap. *)
Lemma aswap_loop_exchange fuel : ∀ x y len i m,
  len - i ≤ Z.of_nat fuel →
  (∀ k, i ≤ k < len → is_Some (m !! (x + k)) ∧ is_Some (m !! (y + k))) →
  (∀ j k, i ≤ j < len → i ≤ k < len → x + j ≠ y + k) →
  ∃ m', aswap_loop fuel x y len i m = Some m' ∧
        (∀ k, i ≤ k < len → m' !! (x + k) = m !! (y + k) ∧ m' !! (y + k) = m !! (x + k)) ∧
        (∀ r, (∀ k, i ≤ k < len → r ≠ x + k ∧ r ≠ y + k) → m' !! r = m !! r).
Proof.
  induction fuel as [|fuel IH]; intros x y len i m Hfuel Hacc Hdis; simpl.
  - destruct (i <? len) eqn:Hi; [apply Z.ltb_lt in Hi; lia|].
    apply Z.ltb_ge in Hi. exists m. split; [done|]. split; [intros k; lia|done].
  - destruct (i <? len) eqn:Hi.
    + apply Z.ltb_lt in Hi.
      destruct (Hacc i) as [Hx Hy]; [lia|].
      destruct (swap_cells_defined _ _ _ Hx Hy) as [m1 Hs]. rewrite Hs.
      pose proof (swap_cells_lookup _ _ _ _ Hs) as Hl.
      destruct (swap_cells_accessible _ _ _ _ Hs) as (_ & _ & Hdom).
      destruct (IH x y len (i + 1) m1) as (m' & Hloop & Hex & Hfr).
      { lia. }
      { intros k Hk. rewrite !Hdom. apply Hacc. lia. }
      { intros j k Hj Hk. apply Hdis; lia. }
      exists m'. split; [done|]. split.
      * intros k Hk. destruct (decide (k = i)) as [->|Hne].
        -- rewrite !Hfr.
           ++ rewrite !Hl. unfold transpose.
              rewrite decide_True by done.
              rewrite decide_False by (apply not_eq_sym, Hdis; lia).
              by rewrite decide_True.
           ++ intros k Hk'. split; [apply not_eq_sym, Hdis; lia|lia].
           ++ intros k Hk'. split; [lia|apply Hdis; lia].
        -- destruct (Hex k) as [H1 H2]; [lia|]. rewrite H1, H2, !Hl. unfold transpose.
           assert (y + k ≠ x + i) by (apply not_eq_sym, Hdis; lia).
           assert (x + k ≠ y + i) by (apply Hdis; lia).
           rewrite !decide_False by lia. done.
      * intros r Hr. rewrite Hfr by (intros k Hk; apply Hr; lia).
        rewrite Hl. unfold transpose. destruct (Hr i) as [? ?]; [lia|].
        by rewrite !decide_False.
    + exists m. apply Z.ltb_ge in Hi. split; [done|]. split; [intros k; lia|done].
Qed.

(** X12: for two ranges of [len] accessible cells that do not overlap,
    [aswap] returns, the two ranges have exchanged their contents, and every
    other cell is unchanged. *)
Theorem aswap_exchange x y len m :
  (∀ k, 0 ≤ k < len → is_Some (m !! (x + k)) ∧ is_Some (m !! (y + k))) →
  (∀ j k, 0 ≤ j < len → 0 ≤ k < len → x + j ≠ y + k) →
  ∃ m', aswap x y len m = Some m' ∧
        (∀ k, 0 ≤ k < len → m' !! (x + k) = m !! (y + k) ∧ m' !! (y + k) = m !! (x + k)) ∧
        (∀ r, (∀ k, 0 ≤ k < len → r ≠ x + k ∧ r ≠ y + k) → m' !! r = m !! r).
Proof. intros Hacc Hdis. apply aswap_loop_exchange; [lia|done..]. Qed.

(** X13: on such ranges [aswap] undoes itself. *)
Theorem aswap_involutive x y len m :
  (∀ k, 0 ≤ k < len → is_Some (m !! (x + k)) ∧ is_Some (m !! (y + k))) →
  (∀ j k, 0 ≤ j < len → 0 ≤ k < len → x + j ≠ y + k) →
  ∃ m', aswap x y len m = Some m' ∧ aswap x y len m' = Some m.
Proof.
  intros Hacc Hdis.
  destruct (aswap_loop_exchange (Z.to_nat len) x y len 0 m) as (m' & Hs & Hex & Hfr);
    [lia|done..|].
  exists m'. split; [done|].
  destruct (aswap_loop_exchange (Z.to_nat len) x y len 0 m')
    as (m'' & Hs' & Hex' & Hfr'); [lia| |done|].
  { intros k Hk. destruct (Hex k Hk) as [-> ->]. destruct (Hacc k Hk). done. }
  unfold aswap. rewrite Hs'. f_equal. apply map_eq. intros r.
  destruct (decide (0 ≤ r - x < len)) as [Hx|Hx].
  { destruct (Hex' (r - x) Hx) as [H1 _]. destruct (Hex (r - x) Hx) as [_ H2].
    replace (x + (r - x)) with r in * by lia. congruence. }
  destruct (decide (0 ≤ r - y < len)) as [Hy|Hy].
  { destruct (Hex' (r - y) Hy) as [_ H1]. destruct (Hex (r - y) Hy) as [H2 _].
    replace (y + (r - y)) with r in * by lia. congruence. }
  rewrite Hfr', Hfr; [done|intros k Hk; lia..].
Qed.

Lemma aswap_loop_defined_iff fuel : ∀ x y len i m,
  len - i ≤ Z.of_nat fuel →
  is_Some (aswap_loop fuel x y len i m) ↔
  ∀ k, i ≤ k < len → is_Some (m !! (x + k)) ∧ is_Some (m !! (y + k)).
Proof.
  induction fuel as [|fuel IH]; intros x y len i m Hfuel; simpl.
  - destruct (i <? len) eqn:Hi; [apply Z.ltb_lt in Hi; lia|].
    apply Z.ltb_ge in Hi. split; [intros _ k; lia|by eexists].
  - destruct (i <? len) eqn:Hi.
    + apply Z.ltb_lt in Hi.
      destruct (swap_cells (x + i) (y + i) m) as [m1|] eqn:Hs.
      * destruct (swap_cells_accessible _ _ _ _ Hs) as (Hx & Hy & Hdom).
        rewrite IH by lia. split.
        -- intros H k Hk. destruct (decide (k = i)) as [->|]; [done|].
           rewrite <- !Hdom. apply H. lia.
        -- intros H k Hk. rewrite !Hdom. apply H. lia.
      * split; [by intros [? ?]|]. intros H. destruct (H i) as [Hx Hy]; [lia|].
        destruct (swap_cells_defined _ _ _ Hx Hy) as [? ?]. congruence.
    + apply Z.ltb_ge in Hi. split; [intros _ k; lia|by eexists].
Qed.

(** X14: [aswap] is defined exactly if every cell of the two ranges is
    accessible, whether the ranges overlap or not. *)
Theorem aswap_defined_iff x y len m :
  is_Some (aswap x y len m) ↔
  ∀ k, 0 ≤ k < len → is_Some (m !! (x + k)) ∧ is_Some (m !! (y + k)).
Proof. apply aswap_loop_defined_iff. lia. Qed.

Lemma aswap_loop_permutes fuel : ∀ x y len i m m',
  aswap_loop fuel x y len i m = Some m' →
  ∃ σ τ : Z → Z,
    (∀ r, σ (τ r) = r ∧ τ (σ r) = r) ∧
    (∀ r, m' !! r = m !! σ r) ∧
    (∀ r, (∀ k, i ≤ k < len → r ≠ x + k ∧ r ≠ y + k) → σ r = r).
Proof.
  induction fuel as [|fuel IH]; intros x y len i m m'; simpl.
  - destruct (i <? len); [done|]. intros [= <-]. by exists id, id.
  - destruct (i <? len) eqn:Hi; [|intros [= <-]; by exists id, id].
    apply Z.ltb_lt in Hi.
    destruct (swap_cells (x + i) (y + i) m) as [m1|] eqn:Hs; [|done].
    pose proof (swap_cells_lookup _ _ _ _ Hs) as Hl.
    intros Hloop. destruct (IH _ _ _ _ _ _ Hloop) as (σ & τ & Hinv & Hread & Hfix).
    exists (λ r, transpose (x + i) (y + i) (σ r)), (λ r, τ (transpose (x + i) (y + i) r)).
    split; [|split].
    + intros r. split.
      * destruct (Hinv (transpose (x + i) (y + i) r)) as [-> _].
        apply transpose_involutive.
      * rewrite transpose_involutive. apply Hinv.
    + intros r. by rewrite Hread, Hl.
    + intros r Hr. rewrite Hfix by (intros k Hk; apply Hr; lia).
      destruct (Hr i) as [? ?]; [lia|]. unfold transpose. by rewrite !decide_False.
Qed.

(** X15: [aswap] only moves elements, also when the ranges overlap: the
    final memory is the initial one read through a bijection of the
    addresses that fixes every address outside the two ranges. *)
Theorem aswap_permutes x y len m m' :
  aswap x y len m = Some m' →
  ∃ σ τ : Z → Z,
    (∀ r, σ (τ r) = r ∧ τ (σ r) = r) ∧
    (∀ r, m' !! r = m !! σ r) ∧
    (∀ r, (∀ k, 0 ≤ k < len → r ≠ x + k ∧ r ≠ y + k) → σ r = r).
Proof. apply aswap_loop_permutes. Qed.

Lemma swap_cells_same p m : is_Some (m !! p) → swap_cells p p m = Some m.
Proof.
  intros [a Ha]. unfold swap_cells. rewrite Ha. f_equal.
  rewrite insert_insert_eq. by apply insert_id.
Qed.

Lemma aswap_loop_same fuel : ∀ x len i m,
  (∀ k, i ≤ k < len → is_Some (m !! (x + k))) →
  len - i ≤ Z.of_nat fuel →
  aswap_loop fuel x x len i m = Some m.
Proof.
  induction fuel as [|fuel IH]; intros x len i m Hacc Hfuel; simpl.
  - destruct (i <? len) eqn:Hi; [apply Z.ltb_lt in Hi; lia|done].
  - destruct (i <? len) eqn:Hi; [|done]. apply Z.ltb_lt in Hi.
    rewrite swap_cells_same by (apply Hacc; lia).
    apply IH; [|lia]. intros k Hk. apply Hacc. lia.
Qed.

(** X16: swapping an accessible range with itself changes nothing. *)
Theorem aswap_same x len m :
  (∀ k, 0 ≤ k < len → is_Some (m !! (x + k))) →
  aswap x x len m = Some m.
Proof. intros Hacc. apply aswap_loop_same; [done|lia]. Qed.
End aswap.

(** Two ranges of two cells in a memory of six. *)
Lemma aswap_exchange_witness :
  let m : gmap Z Z := {[ 10 := 1; 11 := 2; 12 := 3; 20 := 4; 21 := 5; 22 := 6 ]}%Z in
  ∃ m', aswap 10 20 2 m = Some m' ∧
        (∀ k, (0 ≤ k < 2)%Z →
              m' !! (10 + k)%Z = m !! (20 + k)%Z ∧ m' !! (20 + k)%Z = m !! (10 + k)%Z) ∧
        (∀ r, (∀ k, (0 ≤ k < 2)%Z → r ≠ (10 + k)%Z ∧ r ≠ (20 + k)%Z) → m' !! r = m !! r).
Proof.
  intros m. apply (aswap_exchange 10 20 2 m).
  - intros k Hk. assert (k = 0 ∨ k = 1)%Z as [-> | ->] by lia; split; by eexists.
  - intros j k Hj Hk. lia.
Defined.

Lemma aswap_involutive_witness :
  let m : gmap Z Z := {[ 10 := 1; 11 := 2; 12 := 3; 20 := 4; 21 := 5; 22 := 6 ]}%Z in
  ∃ m', aswap 10 20 2 m = Some m' ∧ aswap 10 20 2 m' = Some m.
Proof.
  intros m. apply (aswap_involutive 10 20 2 m).
  - intros k Hk. assert (k = 0 ∨ k = 1)%Z as [-> | ->] by lia; split; by eexists.
  - intros j k Hj Hk. lia.
Defined.

(** Overlapping ranges: [x + 1 = y]. *)
Lemma aswap_permutes_witness :
  let m : gmap Z Z := {[ 10 := 1; 11 := 2; 12 := 3 ]}%Z in
  let m' : gmap Z Z := {[ 10 := 2; 11 := 3; 12 := 1 ]}%Z in
  ∃ σ τ : Z → Z,
    (∀ r, σ (τ r) = r ∧ τ (σ r) = r) ∧
    (∀ r, m' !! r = m !! σ r) ∧
    (∀ r, (∀ k, (0 ≤ k < 2)%Z → r ≠ (10 + k)%Z ∧ r ≠ (11 + k)%Z) → σ r = r).
Proof.
  intros m m'. apply (aswap_permutes 10 11 2 m m'). reflexivity.
Defined.

Lemma aswap_same_witness :
  let m : gmap Z Z := {[ 10 := 1; 11 := 2; 12 := 3 ]}%Z in
  aswap 10 10 3 m = Some m.
Proof.
  intros m. apply (aswap_same 10 3 m).
  intros k Hk. assert (k = 0 ∨ k = 1 ∨ k = 2)%Z as [-> | [-> | ->]] by lia; by eexists.
Defined.
